(** * bcbc: the hashing pipeline of solidcopy/bcbc

    A shallow embedding of [internal/app/bcbc] (disk.go, hash.go,
    progress.go, calc.go, init.go) and the properties of the pipeline:
    disk discovery, incremental file listing, filtering, the per-disk hash
    worker with its progress snapshots, and the merge of the per-disk
    fingerprint files.

    Go strings are byte sequences: they are [string]s whose [ascii]
    characters stand for bytes.  [uint64] counters are [Z] with the
    wrap-around written out.  Go maps are [gmap]s.  The functions of the Go
    libraries that the program calls but that are not simple string
    functions (path arithmetic, Unicode normalisation, regular expressions
    read from the filter file, MD5) are the fields of the class [GoLib]; the
    file system the program runs against is a record of answers, [World]. *)

From Stdlib Require Import ZArith Ascii String.
From stdpp Require Import base option list gmap strings sorting.
Local Open Scope string_scope.
Local Open Scope list_scope.
Local Open Scope stdpp_scope.
Local Open Scope Z_scope.

(** ** Bytes and strings *)

Definition byte_between (lo hi c : ascii) : bool :=
  ((N_of_ascii lo <=? N_of_ascii c)%N && (N_of_ascii c <=? N_of_ascii hi)%N)%bool.

(** The class [[A-Z]] of the two patterns. *)
Definition is_upper (c : ascii) : bool := byte_between "A" "Z" c.

(** The class [\d] of the two patterns: in Go's regexp syntax it is the
    ASCII class [[0-9]]. *)
Definition is_digit (c : ascii) : bool := byte_between "0" "9" c.

Fixpoint string_forallb (p : ascii → bool) (s : string) : bool :=
  match s with
  | EmptyString => true
  | String c s' => (p c && string_forallb p s')%bool
  end.

(** The longest prefix of [s] made of bytes satisfying [p]: what a greedy
    [p+] consumes. *)
Fixpoint take_while (p : ascii → bool) (s : string) : string :=
  match s with
  | EmptyString => EmptyString
  | String c s' => if p c then String c (take_while p s') else EmptyString
  end.

Fixpoint count_byte (sep : ascii) (s : string) : nat :=
  match s with
  | EmptyString => O
  | String c s' => (if decide (c = sep) then 1 else 0) + count_byte sep s'
  end%nat.

(** [strings.Split(s, sep)] for a one-byte separator: the pieces of [s]
    between the occurrences of [sep]; never empty. *)
Fixpoint Split (sep : ascii) (s : string) : list string :=
  match s with
  | EmptyString => [EmptyString]
  | String c s' =>
      if decide (c = sep) then EmptyString :: Split sep s'
      else match Split sep s' with
           | [] => [String c EmptyString]
           | t :: ts => String c t :: ts
           end
  end.

(** [strings.ReplaceAll(s, old, new)] for one-byte [old] and [new]. *)
Fixpoint ReplaceAll (old new : ascii) (s : string) : string :=
  match s with
  | EmptyString => EmptyString
  | String c s' => String (if decide (c = old) then new else c) (ReplaceAll old new s')
  end.

(** [bufio.ScanLines]: a trailing carriage return of a line is dropped. *)
Fixpoint dropCR (s : string) : string :=
  match s with
  | EmptyString => EmptyString
  | String c EmptyString => if decide (c = "013"%char) then EmptyString else s
  | String c s' => String c (dropCR s')
  end.

Fixpoint raw_lines (s : string) : list string :=
  match s with
  | EmptyString => []
  | String c s' =>
      if decide (c = "010"%char) then EmptyString :: raw_lines s'
      else match raw_lines s' with
           | [] => [String c EmptyString]
           | l :: ls => String c l :: ls
           end
  end.

(** [bufio.MaxScanTokenSize]: the size to which the buffer of a
    [bufio.Scanner] grows. *)
Definition MaxScanTokenSize : Z := 64 * 1024.

(** What [Scan] makes of the lines of a file, one after the other.  A
    line is yielded, without its trailing carriage return, when the buffer
    holds it with the line feed that ends it, or with room left to meet
    the end of the file: when it is shorter than the buffer.  At a longer
    line [Scan] returns false with [ErrTooLong] and goes on returning
    false: the lines after it are not yielded.  None of the loops of the
    program asks the scanner for its error. *)
Fixpoint scan_tokens (lines : list string) : list string :=
  match lines with
  | [] => []
  | line :: lines' =>
      if Z.of_nat (String.length line) <? MaxScanTokenSize
      then dropCR line :: scan_tokens lines'
      else []
  end.

(** The tokens a [bufio.Scanner] with the default split function yields on
    a file of content [s]: the newline-terminated lines and, when the
    content does not end in a newline, the non-empty rest, up to the first
    line that does not fit the buffer. *)
Definition ScanLines (s : string) : list string := scan_tokens (raw_lines s).

(** The line feed, as a string. *)
Definition newline : string := String "010"%char EmptyString.

(** [sort.Strings]: ascending in the order [<] of Go strings, which is the
    lexicographic order on bytes, [String.le]. *)
Definition sort_Strings (l : list string) : list string := merge_sort String.le l.

Definition u64 (z : Z) : Z := z mod 2 ^ 64.

(** ** Fatal errors

    [fatalMessageIf] and [fatalMessageError] log a message and end the
    process.  A function that can reach them returns a [result]; the
    constructors of [fatal] are the messages, with the values they are
    formatted with. *)

Inductive fatal : Type :=
  | DiskFileUnreadable (diskFile : string)
  | DiskFileMalformed (diskFile : string)
  | HashFileCorrupt (hashFile : string) (line : nat)
  | HashFileNotCreated (hashFile : string)
  | OutDirNotCreated
  | HashFileNotOpened (hashFile : string).

Inductive result (A : Type) : Type :=
  | Ok (a : A)
  | Fatal (e : fatal).
Arguments Ok {A} a.
Arguments Fatal {A} e.

#[global] Instance result_bind : MBind result :=
  λ A B k r, match r with
             | Ok a => k a
             | Fatal e => Fatal e
             end.

Definition fatalMessageIf (errorOccurred : bool) (e : fatal) : result unit :=
  if errorOccurred then Fatal e else Ok tt.

(** ** The Go libraries and the file system *)

Class GoLib : Type := {
  (** [os.PathSeparator] *)
  Separator : ascii;
  (** the path returned by [filepath.Rel basepath targpath] (the empty
      string when it also returns an error) *)
  filepath_Rel : string → string → string;
  (** [norm.NFC.String] *)
  norm_NFC : string → string;
  (** [path.Dir] *)
  path_Dir : string → string;
  (** compiled regular expressions and [Regexp.MatchString] *)
  Regexp : Type;
  MatchString : Regexp → string → bool;
  (** the sixteen bytes [md5.New()] returns from [Sum(nil)] after the
      given bytes were written to it *)
  md5_Sum : string → string
}.

(** [filepath.ToSlash] *)
Definition filepath_ToSlash `{GoLib} (path : string) : string :=
  if decide (Separator = "/"%char) then path
  else ReplaceAll Separator "/" path.

Inductive error : Type :=
  | ErrOpen (file : string)
  | ErrRead (file : string)
  | ErrWrite (file : string).

(** What one call of [Read] on an open file gives: the bytes read (their
    number is [ret]) and the error. *)
Inductive read_err : Type := NoErr | EOF | IOErr.

Record World : Type := {
  (** [os.ReadFile] of a marker file *)
  os_ReadFile : string → option string;
  (** the paths [filepath.WalkDir] reports under a root that are not
      directories, in the order of the walk *)
  WalkDir : string → list string;
  (** the size [os.Stat] reports, [None] when it fails *)
  os_Stat : string → option Z;
  (** [os.Open] of a file to hash: [None] when it fails, else the results
      of the successive calls of [Read]; once they are used up [Read]
      returns no bytes and [io.EOF] *)
  os_Open : string → option (list (string * read_err));
  (** does [os.MkdirAll] of the output directory succeed *)
  MkdirAll_ok : bool;
  (** does [os.OpenFile] of the named file of the output directory, to
      create it when it is not there and append to it, succeed *)
  os_OpenFile_ok : string → bool;
  (** does [ioutil.WriteFile] of the named file of the output directory
      succeed *)
  writable : string → bool;
  (** does [fmt.Fprintf] of the given line to the open hash file succeed *)
  Fprintf_ok : string → bool;
  (** [time.Now()] when the worker of a disk starts hashing *)
  time_Now : Z
}.

(** The output directory [config.outDir()] is a map from the names of its
    files to their contents; a file of that directory is named by its base
    name. *)
Abbreviation OutDir := (gmap string string).

(** ** init.go *)

Record Filter `{GoLib} : Type := {
  pattern : Regexp;
  inclusion : bool
}.

Record Config `{GoLib} : Type := {
  homeDir : string;
  filters : list Filter
}.

(** ** disk.go *)

Record DiskInfo : Type := {
  index : nat;
  id : string;
  rootPath : string
}.

(** [regexp.MustCompile("\\A([A-Z]\\d+)").FindStringSubmatch]: the match
    and its one group, or [None] for Go's [nil]. *)
Definition diskPattern_FindStringSubmatch (s : string) : option (list string) :=
  match s with
  | String c s' =>
      if is_upper c then
        match take_while is_digit s' with
        | EmptyString => None
        | ds => Some [String c ds; String c ds]
        end
      else None
  | EmptyString => None
  end.

Fixpoint makeDiskInfoList_loop `{GoLib} (w : World) (diskFiles : list string)
    (diskInfoList : list DiskInfo) : result (list DiskInfo) :=
  match diskFiles with
  | [] => Ok diskInfoList
  | diskFile :: diskFiles' =>
      match os_ReadFile w diskFile with
      | None => Fatal (DiskFileUnreadable diskFile)
      | Some diskFileData =>
          match diskPattern_FindStringSubmatch diskFileData with
          | None => Fatal (DiskFileMalformed diskFile)
          | Some match_ =>
              let index := length diskInfoList in
              let id := default "" (match_ !! 0%nat) in
              let rootPath := path_Dir diskFile in
              makeDiskInfoList_loop w diskFiles'
                (diskInfoList ++ [Build_DiskInfo index id rootPath])
          end
      end
  end.

Definition makeDiskInfoList `{GoLib} (w : World) (diskFiles : list string) :
    result (list DiskInfo) :=
  makeDiskInfoList_loop w diskFiles [].

(** [DiskInfo.hashFile]: the file named by the disk id in the output
    directory. *)
Definition hashFile (di : DiskInfo) : string := id di.

Record FileInfo : Type := {
  diskInfo : DiskInfo;
  realPath : string;
  normPath : string;
  _size : Z
}.

(** [FileInfo.init] *)
Definition FileInfo_init `{GoLib} (diskInfo : DiskInfo) (realPath : string) : FileInfo :=
  let normPath := filepath_Rel (rootPath diskInfo) realPath in
  let normPath := filepath_ToSlash normPath in
  let normPath := norm_NFC normPath in
  {| diskInfo := diskInfo; realPath := realPath; normPath := normPath; _size := -1 |}.

(** [FileInfo.size]: the size and the receiver as the call leaves it.
    A failed [os.Stat] gives 0 and no error. *)
Definition FileInfo_size (w : World) (fi : FileInfo) : Z * FileInfo :=
  if decide (_size fi ≠ -1) then (u64 (_size fi), fi)
  else match os_Stat w (realPath fi) with
       | Some sz =>
           (u64 sz, {| diskInfo := diskInfo fi; realPath := realPath fi;
                       normPath := normPath fi; _size := sz |})
       | None => (0, fi)
       end.

Fixpoint makeHashMap_loop (file : string) (i : nat) (lines : list string)
    (result_ : gmap string string) : result (gmap string string) :=
  match lines with
  | [] => Ok result_
  | line :: lines' =>
      let tokens := Split ":" line in
      _ ← fatalMessageIf (negb (length tokens =? 2)%nat) (HashFileCorrupt file i);
      makeHashMap_loop file (S i) lines'
        (<[default "" (tokens !! 0%nat) := default "" (tokens !! 1%nat)]> result_)
  end.

Definition makeHashMap (out : OutDir) (diskInfo : DiskInfo) : result (gmap string string) :=
  match out !! hashFile diskInfo with
  | None => Ok ∅
  | Some content => makeHashMap_loop (hashFile diskInfo) 1 (ScanLines content) ∅
  end.

Definition listFiles (w : World) (rootPath : string) : list string := WalkDir w rootPath.

Fixpoint filterFile_loop `{GoLib} (fs : list Filter) (normPath : string) : bool :=
  match fs with
  | [] => false
  | filter :: fs' =>
      if MatchString (pattern filter) normPath then inclusion filter
      else filterFile_loop fs' normPath
  end.

Definition filterFile `{GoLib} (config : Config) (normPath : string) : bool :=
  filterFile_loop (filters config) normPath.

(** The state of the loop of [listFileInfo]: the builder [trimmedHashs],
    the list and the total. *)
Record listing : Type := {
  trimmedHashs : string;
  fileInfoList : list FileInfo;
  totalSize : Z
}.

Definition listFileInfo_step `{GoLib} (w : World) (config : Config)
    (diskInfo : DiskInfo) (hashMap : gmap string string)
    (st : listing) (file : string) : listing :=
  let fileInfo := FileInfo_init diskInfo file in
  match hashMap !! normPath fileInfo with
  | Some hash =>
      {| trimmedHashs := trimmedHashs st +:+ normPath fileInfo +:+ ":" +:+ hash +:+ newline;
         fileInfoList := fileInfoList st;
         totalSize := totalSize st |}
  | None =>
      if filterFile config (normPath fileInfo) then
        (* the record is appended before its size is resolved: the copy in
           the list keeps [_size = -1] *)
        let fileInfoList' := fileInfoList st ++ [fileInfo] in
        let '(size, _) := FileInfo_size w fileInfo in
        {| trimmedHashs := trimmedHashs st;
           fileInfoList := fileInfoList';
           totalSize := u64 (totalSize st + size) |}
      else st
  end.

(** [listFileInfo]: the files to hash, their total size and the output
    directory with the hash file of the disk rewritten. *)
Definition listFileInfo `{GoLib} (w : World) (config : Config) (out : OutDir)
    (diskInfo : DiskInfo) : result (list FileInfo * Z * OutDir) :=
  hashMap ← makeHashMap out diskInfo;
  let files := listFiles w (rootPath diskInfo) in
  let st := foldl (listFileInfo_step w config diskInfo hashMap)
              {| trimmedHashs := ""; fileInfoList := []; totalSize := 0 |} files in
  _ ← fatalMessageIf (negb (writable w (hashFile diskInfo)))
        (HashFileNotCreated (hashFile diskInfo));
  Ok (fileInfoList st, totalSize st, <[hashFile diskInfo := trimmedHashs st]> out).

(** ** progress.go *)

Record ProgressCount : Type := {
  total : Z;
  processed : Z
}.

(** [ProgressCount.Completed] *)
Definition Completed (pc : ProgressCount) : bool := (total pc <=? processed pc)%Z.

(** [ProgressCount.Increment]: [pc.processed += n] on a [uint64]. *)
Definition Increment (pc : ProgressCount) (n : Z) : ProgressCount :=
  {| total := total pc; processed := u64 (processed pc + n) |}.

Record ProgressInfo : Type := {
  progress_diskInfo : DiskInfo;
  sizeCount : ProgressCount;
  fileCount : ProgressCount;
  processingFile : string;
  startTime : Z
}.

Definition with_sizeCount (p : ProgressInfo) (c : ProgressCount) : ProgressInfo :=
  {| progress_diskInfo := progress_diskInfo p; sizeCount := c;
     fileCount := fileCount p; processingFile := processingFile p;
     startTime := startTime p |}.

Definition with_fileCount (p : ProgressInfo) (c : ProgressCount) : ProgressInfo :=
  {| progress_diskInfo := progress_diskInfo p; sizeCount := sizeCount p;
     fileCount := c; processingFile := processingFile p;
     startTime := startTime p |}.

Definition with_processingFile (p : ProgressInfo) (file : string) : ProgressInfo :=
  {| progress_diskInfo := progress_diskInfo p; sizeCount := sizeCount p;
     fileCount := fileCount p; processingFile := file;
     startTime := startTime p |}.

(** ** hash.go *)

Record CompletionMessage : Type := {
  diskId : string;
  err : option error
}.

(** The lines the worker logs. *)
Inductive log_entry : Type :=
  | LogOpenFailed (file : string)
  | LogHashError (file : string) (e : error).

Definition hex_digit (n : N) : ascii :=
  if (n <? 10)%N then ascii_of_N (48 + n) else ascii_of_N (87 + n).

(** [%x] of a byte slice: two lower-case hexadecimal digits per byte. *)
Fixpoint hex (s : string) : string :=
  match s with
  | EmptyString => EmptyString
  | String c s' =>
      String (hex_digit (N_of_ascii c / 16)) (String (hex_digit (N_of_ascii c mod 16)) (hex s'))
  end.

(** What a call leaves behind, besides its results: the snapshots sent on
    the progress channel, the log lines, both in order. *)
Record trace : Type := {
  sent : list ProgressInfo;
  logged : list log_entry
}.

(** The read loop of [calcHash].  [hasher] is what was written to the
    digest so far; [progressInfo] is the copy [calcHash] received. *)
Fixpoint calcHash_loop `{GoLib} (file : string) (reads : list (string * read_err))
    (hasher : string) (progressInfo : ProgressInfo) :
    string * option error * list ProgressInfo :=
  match reads with
  | [] => (md5_Sum hasher, None, [])
  | (buffer, e) :: reads' =>
      let ret := Z.of_nat (String.length buffer) in
      if decide (ret = 0) then (md5_Sum hasher, None, [])
      else match e with
           | IOErr => (EmptyString, Some (ErrRead file), [])
           | _ =>
               let progressInfo :=
                 with_sizeCount progressInfo (Increment (sizeCount progressInfo) ret) in
               let '(hash, e', snapshots) :=
                 calcHash_loop file reads' (hasher +:+ buffer) progressInfo in
               (hash, e', progressInfo :: snapshots)
           end
  end.

(** [calcHash]: the digest, the error, and the trace. *)
Definition calcHash `{GoLib} (w : World) (file : string) (progressInfo : ProgressInfo) :
    string * option error * trace :=
  match os_Open w file with
  | None =>
      (EmptyString, Some (ErrOpen file), {| sent := []; logged := [LogOpenFailed file] |})
  | Some reads =>
      let progressInfo := with_processingFile progressInfo file in
      let '(hash, e, snapshots) := calcHash_loop file reads EmptyString progressInfo in
      (hash, e, {| sent := snapshots; logged := [] |})
  end.

(** What the loop of [hashRoutine] does from one of its iterations on. *)
Record hashing : Type := {
  hashing_trace : trace;
  (** the bytes appended to the hash file through [hashFileOut] *)
  appended : string;
  (** the message sent on the completion channel *)
  completion : CompletionMessage;
  (** the counters when the worker ends *)
  final : ProgressInfo
}.

Definition after (t : trace) (line : string) (h : hashing) : hashing :=
  {| hashing_trace := {| sent := sent t ++ sent (hashing_trace h);
                         logged := logged t ++ logged (hashing_trace h) |};
     appended := line +:+ appended h;
     completion := completion h;
     final := final h |}.

(** The loop of [hashRoutine] over the queued files, with what follows it:
    the last snapshot and the completion message. *)
Fixpoint hashRoutine_loop `{GoLib} (w : World) (diskInfo : DiskInfo)
    (fileInfoList : list FileInfo) (progressInfo : ProgressInfo) : hashing :=
  match fileInfoList with
  | [] =>
      {| hashing_trace := {| sent := [progressInfo]; logged := [] |};
         appended := EmptyString;
         completion := {| diskId := id diskInfo; err := None |};
         final := progressInfo |}
  | fi :: fileInfoList' =>
      let '(hash, e, t) := calcHash w (realPath fi) progressInfo in
      let progressInfo :=
        with_fileCount progressInfo (Increment (fileCount progressInfo) 1) in
      let '(size, _) := FileInfo_size w fi in
      let progressInfo :=
        with_sizeCount progressInfo (Increment (sizeCount progressInfo) size) in
      match e with
      | Some e =>
          after {| sent := sent t; logged := logged t ++ [LogHashError (realPath fi) e] |}
            EmptyString (hashRoutine_loop w diskInfo fileInfoList' progressInfo)
      | None =>
          let line := normPath fi +:+ ":" +:+ hex hash +:+ newline in
          if Fprintf_ok w line then
            after t line (hashRoutine_loop w diskInfo fileInfoList' progressInfo)
          else
            {| hashing_trace := t;
               appended := EmptyString;
               completion := {| diskId := id diskInfo;
                                err := Some (ErrWrite (hashFile diskInfo)) |};
               final := progressInfo |}
      end
  end.

(** The run of the worker of one disk. *)
Record worker : Type := {
  worker_trace : trace;
  worker_completion : CompletionMessage;
  worker_final : ProgressInfo;
  (** the output directory when the worker ends *)
  worker_out : OutDir;
  (** the files the listing queued *)
  worker_queue : list FileInfo
}.

(** [hashRoutine].  [w] is the file system as the listing of the disk
    meets it, [w'] as the hashing of the queued files meets it: files can
    change or vanish in between. *)
Definition hashRoutine `{GoLib} (w w' : World) (config : Config) (out : OutDir)
    (diskInfo : DiskInfo) : result worker :=
  _ ← fatalMessageIf (negb (MkdirAll_ok w)) OutDirNotCreated;
  _ ← fatalMessageIf (negb (os_OpenFile_ok w (hashFile diskInfo)))
        (HashFileNotOpened (hashFile diskInfo));
  (* O_CREATE: the hash file exists from here on *)
  let out := <[hashFile diskInfo := default EmptyString (out !! hashFile diskInfo)]> out in
  '(fileInfoList, totalSize, out) ← listFileInfo w config out diskInfo;
  let progressInfo :=
    {| progress_diskInfo := diskInfo;
       fileCount := {| total := u64 (Z.of_nat (length fileInfoList)); processed := 0 |};
       sizeCount := {| total := totalSize; processed := 0 |};
       processingFile := EmptyString;
       startTime := time_Now w |} in
  let h := hashRoutine_loop w' diskInfo fileInfoList progressInfo in
  Ok {| worker_trace := {| sent := progressInfo :: sent (hashing_trace h);
                           logged := logged (hashing_trace h) |};
        worker_completion := completion h;
        worker_final := final h;
        worker_out := <[hashFile diskInfo :=
                          default EmptyString (out !! hashFile diskInfo) +:+ appended h]> out;
        worker_queue := fileInfoList |}.

(** ** calc.go *)

(** [regexp.MustCompile("^([A-Z])\\d+$").FindStringSubmatch]: the match
    and its one group, or the empty list for Go's [nil]. *)
Definition hashFilePattern_FindStringSubmatch (s : string) : list string :=
  match s with
  | String c ds =>
      if (is_upper c && negb (String.eqb ds EmptyString) && string_forallb is_digit ds)%bool
      then [s; String c EmptyString]
      else []
  | EmptyString => []
  end.

(** [filepath.Glob(path.Join(config.outDir(), "*"))]: the names of the
    files of the output directory, sorted. *)
Definition Glob (out : OutDir) : list string := sort_Strings (map_to_list out).*1.

(** The scanner loop of the merge: the lines of a file that are not empty
    are appended. *)
Fixpoint scan_into (mergedHashes : list string) (lines : list string) : list string :=
  match lines with
  | [] => mergedHashes
  | line :: lines' =>
      if decide (line ≠ EmptyString) then scan_into (mergedHashes ++ [line]) lines'
      else scan_into mergedHashes lines'
  end.

Definition integrate_file (out : OutDir) (mergedHashMap : gmap string (list string))
    (outputFile : string) : gmap string (list string) :=
  let fileName := outputFile in
  let subMatches := hashFilePattern_FindStringSubmatch fileName in
  if (length subMatches =? 0)%nat then mergedHashMap
  else
    let group := default EmptyString (subMatches !! 1%nat) in
    let mergedHashes := default [] (mergedHashMap !! group) in
    let mergedHashes :=
      scan_into mergedHashes (ScanLines (default EmptyString (out !! outputFile))) in
    <[group := mergedHashes]> mergedHashMap.

(** [fmt.Fprintln] of each line. *)
Fixpoint Fprintln_all (lines : list string) : string :=
  match lines with
  | [] => EmptyString
  | line :: lines' => line +:+ newline +:+ Fprintln_all lines'
  end.

Definition write_group (out : OutDir) (entry : string * list string) : OutDir :=
  let '(group, mergedHashes) := entry in
  let mergedHashes := sort_Strings mergedHashes in
  let mergedHashFile := group in
  (* O_TRUNC: what the file held is gone *)
  <[mergedHashFile := Fprintln_all mergedHashes]> out.

Definition mergedHashMap_of (out : OutDir) : gmap string (list string) :=
  foldl (integrate_file out) ∅ (Glob out).

(** [executeHashFileIntegration]: the output directory after the merge.
    Opening, reading and writing the files of the directory succeed (their
    failures are fatal); the groups are written in the order in which the
    map is ranged over. *)
Definition executeHashFileIntegration (out : OutDir) : OutDir :=
  foldl write_group out (map_to_list (mergedHashMap_of out)).

(** ** More of init.go, disk.go and progress.go *)

(** How [initFilters] ends when it does not return the rules: the fatal
    messages, and the run-time panic of indexing an empty line. *)
Inductive filter_fatal : Type :=
  | FilterFileNotFound
  | FilterLineMalformed (i : nat) (line : string)
  | FilterPatternInvalid (i : nat) (line : string)
  | IndexOutOfRange.

(** The loop of [initFilters] over the lines of the filter file.
    [TrimSpace] is [strings.TrimSpace] and [Compile] is [regexp.Compile],
    [None] when it returns an error. *)
Fixpoint initFilters_loop `{GoLib} (TrimSpace : string → string)
    (Compile : string → option Regexp) (i : nat) (lines : list string)
    (filters : list Filter) : filter_fatal + list Filter :=
  match lines with
  | [] => inr filters
  | line :: lines' =>
      let line := norm_NFC line in
      if String.eqb (TrimSpace line) EmptyString
      then initFilters_loop TrimSpace Compile (S i) lines' filters
      else match line with
           | EmptyString => inl IndexOutOfRange
           | String c rest =>
               if Ascii.eqb c "#"
               then initFilters_loop TrimSpace Compile (S i) lines' filters
               else
                 let malformed :=
                   ((String.length line <? 2)%nat ||
                    (negb (Ascii.eqb c "+") && negb (Ascii.eqb c "-")))%bool in
                 if malformed then inl (FilterLineMalformed i line)
                 else match Compile rest with
                      | None => inl (FilterPatternInvalid i line)
                      | Some pattern =>
                          let inclusion := Ascii.eqb c "+" in
                          initFilters_loop TrimSpace Compile (S i) lines'
                            (filters ++ [{| pattern := pattern; inclusion := inclusion |}])
                      end
           end
  end.

(** [initFilters]: the rules of the filter file, whose content is [None]
    when the file cannot be opened. *)
Definition initFilters `{GoLib} (TrimSpace : string → string)
    (Compile : string → option Regexp) (filterFile_content : option string) :
    filter_fatal + list Filter :=
  match filterFile_content with
  | None => inl FilterFileNotFound
  | Some content => initFilters_loop TrimSpace Compile 1 (ScanLines content) []
  end.

(** The loop of [findDiskFileFromCurrent]: from [dir] upwards, the first
    directory that holds a file [disk]; [inr tt] is [fs.ErrNotExist].  The
    loop ends only when a marker is found or [dir] is the root, so it is
    run for at most [fuel] directories; [None] is a loop that goes on
    beyond them.  [Join] is [path.Join]. *)
Fixpoint findDiskFileFromCurrent_loop `{GoLib} (w : World) (Join : string → string → string)
    (fuel : nat) (dir : string) : option (string + unit) :=
  match fuel with
  | O => None
  | S fuel' =>
      let diskFile := Join dir "disk" in
      match os_Stat w diskFile with
      | Some _ => Some (inl diskFile)
      | None =>
          if String.eqb dir "/" then Some (inr tt)
          else findDiskFileFromCurrent_loop w Join fuel' (path_Dir dir)
      end
  end.

(** [findDiskFiles]: [getwd] is the current directory, asked for only when
    no root is given; not finding a marker is fatal ([inr tt]). *)
Definition findDiskFiles `{GoLib} (w : World) (Join : string → string → string)
    (fuel : nat) (getwd : string) (diskRoots : list string) : option (list string + unit) :=
  if (length diskRoots =? 0)%nat then
    match findDiskFileFromCurrent_loop w Join fuel getwd with
    | None => None
    | Some (inl diskFile) => Some (inl [diskFile])
    | Some (inr _) => Some (inr tt)
    end
  else Some (inl ((λ dr, Join dr "disk") <$> diskRoots)).

(** [time.Second], [time.Minute] and [time.Hour], in nanoseconds. *)
Definition time_Second : Z := 1000000000.
Definition time_Minute : Z := 60 * time_Second.
Definition time_Hour : Z := 60 * time_Minute.

(** [formatRemainTime].  The division of [int64] truncates towards zero;
    [Sprintf] is [fmt.Sprintf] with the format of the function applied to
    the three numbers. *)
Definition formatRemainTime (Sprintf : Z → Z → Z → string) (remainTime : Z) : string :=
  if decide (remainTime = -1) then "  -:--:--"
  else
    let hours := remainTime ÷ time_Hour in
    let remainTime := remainTime - hours * time_Hour in
    let minutes := remainTime ÷ time_Minute in
    let remainTime := remainTime - minutes * time_Minute in
    let seconds := remainTime ÷ time_Second in
    Sprintf hours minutes seconds.

(** ** The vocabulary of the properties *)

(** *** The prior fingerprint file *)

Definition well_formed_line (line : string) : Prop := count_byte ":" line = 1%nat.

#[global] Instance well_formed_line_dec line : Decision (well_formed_line line).
Proof. unfold well_formed_line. apply _. Defined.

(** A line that the buffer of the scanner holds. *)
Definition fits (line : string) : Prop :=
  Z.of_nat (String.length line) < MaxScanTokenSize.

(** *** The filter rules *)

Definition no_match `{GoLib} (normPath : string) (rule : Filter) : Prop :=
  MatchString (pattern rule) normPath = false.

(** *** Disk markers *)

(** The marker pattern as the specification words it: one or more
    upper-case letters followed by digits, the match being the id. *)
Definition marker_id_spec (content id : string) : Prop :=
  ∃ letters digits rest,
    content = letters +:+ digits +:+ rest ∧ id = letters +:+ digits ∧
    letters ≠ EmptyString ∧ string_forallb is_upper letters = true ∧
    digits ≠ EmptyString ∧ string_forallb is_digit digits = true.

(** The marker pattern of the code: exactly one upper-case letter, then
    the longest run of digits, which is not empty. *)
Definition marker_id (content id : string) : Prop :=
  ∃ c digits rest,
    content = String c (digits +:+ rest) ∧ id = String c digits ∧
    is_upper c = true ∧
    digits ≠ EmptyString ∧ string_forallb is_digit digits = true ∧
    take_while is_digit rest = EmptyString.

(** A disk made from a marker file the code accepts. *)
Definition accepted `{GoLib} (w : World) (diskFile : string) (d : DiskInfo) : Prop :=
  ∃ content, os_ReadFile w diskFile = Some content ∧
    marker_id content (id d) ∧ rootPath d = path_Dir diskFile.

(** A marker file the code refuses, with the fatal error it gets. *)
Definition refused (w : World) (diskFile : string) (e : fatal) : Prop :=
  (os_ReadFile w diskFile = None ∧ e = DiskFileUnreadable diskFile) ∨
  (∃ content, os_ReadFile w diskFile = Some content ∧
     (∀ id, ¬ marker_id content id) ∧ e = DiskFileMalformed diskFile).

(** *** The incremental file lister *)

(** One fingerprint line. *)
Definition record_line (normPath hash : string) : string :=
  normPath +:+ ":" +:+ hash +:+ newline.

Fixpoint concat_lines (records : list (string * string)) : string :=
  match records with
  | [] => EmptyString
  | (p, h) :: records' => record_line p h +:+ concat_lines records'
  end.

(** The carry-forward records of a walk: for every file visited, in the
    order of the walk, whose canonical path the prior mapping holds, that
    path with the prior digest. *)
Definition carried `{GoLib} (diskInfo : DiskInfo) (hashMap : gmap string string)
    (files : list string) : list (string * string) :=
  omap (λ file, let p := normPath (FileInfo_init diskInfo file) in
                (λ h, (p, h)) <$> hashMap !! p) files.

(** The files a walk leaves to hash: those whose canonical path the prior
    mapping does not hold and the filter rules include. *)
Definition to_hash `{GoLib} (config : Config) (diskInfo : DiskInfo)
    (hashMap : gmap string string) (files : list string) : list FileInfo :=
  omap (λ file, let fi := FileInfo_init diskInfo file in
                match hashMap !! normPath fi with
                | Some _ => None
                | None => if filterFile config (normPath fi) then Some fi else None
                end) files.

(** *** The canonical path *)






(** *** The merge *)

(** The group of a file of the output directory: the letter of its name
    when the merge pattern matches the name, which makes it an input of the
    merge. *)
Definition group_of (fileName : string) : option string :=
  match hashFilePattern_FindStringSubmatch fileName with
  | _ :: group :: _ => Some group
  | _ => None
  end.

(** The lines of a file of the output directory that the merge keeps. *)
Definition file_lines (out : OutDir) (fileName : string) : list string :=
  filter (λ line, line ≠ EmptyString) (ScanLines (default EmptyString (out !! fileName))).

(** The lines the merge collects for a group from the listed files: the
    lines that are not empty of the files of the group, file after file. *)
Definition group_lines (out : OutDir) (group : string) (fileNames : list string) :
    list string :=
  fileNames ≫= λ fileName,
    if decide (group_of fileName = Some group) then file_lines out fileName else [].

(** The lines of a text as the specification speaks of them: what stands
    between the line feeds, however long, a carriage return before a line
    feed being part of the end of the line. *)
Definition text_lines (content : string) : list string := dropCR <$> raw_lines content.


Definition in_group (group : string) (fileNames : list string) : Prop :=
  Exists (λ fileName, group_of fileName = Some group) fileNames.

(** *** The worker of a disk *)

(** The bytes the read loop of [calcHash] counts on a file whose reads
    give [reads]. *)
Fixpoint bytes_consumed (reads : list (string * read_err)) : Z :=
  match reads with
  | [] => 0
  | (buffer, e) :: reads' =>
      if decide (Z.of_nat (String.length buffer) = 0) then 0
      else match e with
           | IOErr => 0
           | _ => Z.of_nat (String.length buffer) + bytes_consumed reads'
           end
  end.

(** The size the worker adds for a queued file once it is done with it. *)
Definition size_after (w : World) (fi : FileInfo) : Z := (FileInfo_size w fi).1.

Definition sum_sizes (w : World) (fileInfoList : list FileInfo) : Z :=
  foldr (λ fi acc, size_after w fi + acc) 0 fileInfoList.

(** No read of the file gives more bytes than the size it is then found
    to have. *)
Definition size_covers_reads (w : World) (fi : FileInfo) : Prop :=
  ∀ reads, os_Open w (realPath fi) = Some reads → bytes_consumed reads ≤ size_after w fi.

Definition bytes_le (p q : ProgressInfo) : Prop :=
  processed (sizeCount p) ≤ processed (sizeCount q).

Definition files_le (p q : ProgressInfo) : Prop :=
  processed (fileCount p) ≤ processed (fileCount q).

(** The counters after one more file. *)
Definition next_progress (w : World) (fi : FileInfo) (p : ProgressInfo) : ProgressInfo :=
  with_sizeCount (with_fileCount p (Increment (fileCount p) 1))
    (Increment (sizeCount p) (size_after w fi)).

(** *** The digest of a file and the lines of a run *)

(** A read that gives bytes and no I/O error: the read loop goes on after
    it. *)
Definition clean_read (r : string * read_err) : Prop :=
  r.1 ≠ EmptyString ∧ r.2 ≠ IOErr.

(** The first read is one that gives bytes together with an I/O error. *)
Definition read_fails (reads : list (string * read_err)) : bool :=
  match reads with
  | (buffer, IOErr) :: _ => negb (String.eqb buffer EmptyString)
  | _ => false
  end.

(** The bytes of the reads, one after the other. *)
Definition read_bytes (reads : list (string * read_err)) : string :=
  foldr (λ r acc, r.1 +:+ acc) EmptyString reads.

(** The digest the read loop of [calcHash] ends with, [None] when it ends
    with an error; the counters play no part in it. *)
Fixpoint digest_reads `{GoLib} (reads : list (string * read_err)) (hasher : string) :
    option string :=
  match reads with
  | [] => Some (md5_Sum hasher)
  | (buffer, e) :: reads' =>
      if decide (Z.of_nat (String.length buffer) = 0) then Some (md5_Sum hasher)
      else match e with
           | IOErr => None
           | _ => digest_reads reads' (hasher +:+ buffer)
           end
  end.

(** The digest of a file as the worker gets it, [None] when the file
    cannot be opened or read. *)
Definition file_digest `{GoLib} (w : World) (file : string) : option string :=
  os_Open w file ≫= λ reads, digest_reads reads EmptyString.

(** The records of the queued files that get a digest, in the order of the
    queue. *)
Definition hashed_records `{GoLib} (w : World) (fileInfoList : list FileInfo) :
    list (string * string) :=
  omap (λ fi, (λ hash, (normPath fi, hex hash)) <$> file_digest w (realPath fi)) fileInfoList.

(** The records whose line [fmt.Fprintf] writes: those before the first
    one it fails on. *)
Fixpoint written (w : World) (records : list (string * string)) : list (string * string) :=
  match records with
  | [] => []
  | (p, h) :: records' =>
      if Fprintf_ok w (record_line p h) then (p, h) :: written w records' else []
  end.

(** *** Fingerprint files that read back as they were written *)

(** The byte does not occur in the string. *)
Definition free_of (c : ascii) (s : string) : Prop := count_byte c s = 0%nat.

(** A record that its line gives back when it is read: neither the path
    nor the digest has a colon or a line feed, and the digest does not end
    in a carriage return, which the scanner would drop. *)
Definition clean_record (r : string * string) : Prop :=
  free_of ":" r.1 ∧ free_of "010" r.1 ∧
  free_of ":" r.2 ∧ free_of "010" r.2 ∧ dropCR r.2 = r.2.

(** A record whose line the scanner's buffer holds. *)
Definition short_record (r : string * string) : Prop := fits (r.1 +:+ ":" +:+ r.2).

(** *** The filter file *)

(** A line of the filter file that is passed over: blank, or a comment. *)
Definition skips `{GoLib} (TrimSpace : string → string) (line : string) : bool :=
  (String.eqb (TrimSpace (norm_NFC line)) EmptyString ||
   match norm_NFC line with
   | String c _ => Ascii.eqb c "#"
   | EmptyString => false
   end)%bool.

(** A line that has the form of a rule: a sign and a pattern that is not
    empty. *)
Definition rule_form (line : string) (c : ascii) (rest : string) : Prop :=
  line = String c rest ∧ rest ≠ EmptyString ∧ (c = "+" ∨ c = "-")%char.

(** The rule a line of the filter file gives. *)
Definition rule_of `{GoLib} (Compile : string → option Regexp) (line : string)
    (f : Filter) : Prop :=
  ∃ c rest, rule_form (norm_NFC line) c rest ∧
    Compile rest = Some (pattern f) ∧ inclusion f = Ascii.eqb c "+".

(** The fatal error a line of the filter file gives, [i] being its number. *)
Definition bad_rule `{GoLib} (Compile : string → option Regexp) (i : nat) (line : string)
    (e : filter_fatal) : Prop :=
  (e = FilterLineMalformed i (norm_NFC line) ∧ ∀ c rest, ¬ rule_form (norm_NFC line) c rest) ∨
  (e = FilterPatternInvalid i (norm_NFC line) ∧
   ∃ c rest, rule_form (norm_NFC line) c rest ∧ Compile rest = None).

(** *** The search for the marker file *)

(** The [k]-th directory above [dir]. *)
Definition ancestor `{GoLib} (k : nat) (dir : string) : string := Nat.iter k path_Dir dir.

(** ** A small instance of the libraries, for the examples

    Paths are Windows paths (the separator is the backslash), the relative
    path is what follows the base and one separator, normalisation does
    nothing (which is NFC on ASCII), a compiled regular expression is the
    predicate it decides, and the digest is the bytes themselves. *)

Fixpoint string_drop (n : nat) (s : string) : string :=
  match n, s with
  | O, _ => s
  | S n', String _ s' => string_drop n' s'
  | S _, EmptyString => EmptyString
  end.

Definition example_lib : GoLib := {|
  Separator := "\"%char;
  filepath_Rel := λ basepath targpath, string_drop (S (String.length basepath)) targpath;
  norm_NFC := λ s, s;
  path_Dir := λ p, p;
  Regexp := string → bool;
  MatchString := λ re s, re s;
  md5_Sum := λ s, s
|}.

(** A file system with one marker file, [D/disk], and one file, [D\f];
    [reads] and [stat] are what opening and sizing that file give. *)
Definition example_world (marker : string)
    (reads : option (list (string * read_err))) (stat : option Z) : World := {|
  os_ReadFile := λ p, if decide (p = "D/disk") then Some marker else None;
  WalkDir := λ root, if decide (root = "D") then ["D\f"] else [];
  os_Stat := λ p, if decide (p = "D\f") then stat else None;
  os_Open := λ p, if decide (p = "D\f") then reads else None;
  MkdirAll_ok := true;
  os_OpenFile_ok := λ _, true;
  writable := λ _, true;
  Fprintf_ok := λ _, true;
  time_Now := 0
|}.

Definition example_disk : DiskInfo := {| index := 0; id := "A1"; rootPath := "D" |}.

(** The filter file [+.*]: every path is included. *)
Definition include_all : @Config example_lib :=
  @Build_Config example_lib "home" [@Build_Filter example_lib (λ _, true) true].

(** The filter file [-.*]: every path is excluded. *)
Definition exclude_all : @Config example_lib :=
  @Build_Config example_lib "home" [@Build_Filter example_lib (λ _, true) false].

(** A prior fingerprint file with a record of the file [f] of the disk and
    one of a file, [gone], that is no longer there. *)
Definition example_out : OutDir := {[ "A1" := record_line "f" "abc" +:+ record_line "gone" "123" ]}.

Definition example_hashMap : gmap string string := <["gone" := "123"]> (<["f" := "abc"]> ∅).

(** The file [D\f] read in one piece of ten bytes. *)
Definition ten_bytes : option (list (string * read_err)) := Some [("0123456789", NoErr)].

(** A fingerprint file whose second line has no colon and whose third
    line has two. *)
Definition example_corrupt : string :=
  "a:1" +:+ newline +:+ "b" +:+ newline +:+ "c:2:3" +:+ newline.

(** The counters of a worker that has eight files of a hundred bytes to
    hash and has hashed none. *)
Definition example_progress : ProgressInfo := {|
  progress_diskInfo := example_disk;
  sizeCount := {| total := 100; processed := 0 |};
  fileCount := {| total := 8; processed := 0 |};
  processingFile := EmptyString;
  startTime := 0
|}.

(** A disk whose one file, [D\a:b], has a colon in its name and reads as
    three bytes. *)
Definition colon_world : World := {|
  os_ReadFile := λ p, if decide (p = "D/disk") then Some "A1" else None;
  WalkDir := λ root, if decide (root = "D") then ["D\a:b"] else [];
  os_Stat := λ p, if decide (p = "D\a:b") then Some 3 else None;
  os_Open := λ p, if decide (p = "D\a:b") then Some [("xyz", EOF)] else None;
  MkdirAll_ok := true;
  os_OpenFile_ok := λ _, true;
  writable := λ _, true;
  Fprintf_ok := λ _, true;
  time_Now := 0
|}.

(** A filter file with a comment, an empty line and two rules; patterns
    are compiled to the test of equality with their text. *)
Definition example_filter_file : string :=
  "# rules" +:+ newline +:+ newline +:+ "-x" +:+ newline +:+ "+y" +:+ newline.

Definition example_Compile : string → option (@Regexp example_lib) :=
  λ text, Some (λ p, String.eqb p text).

(** Paths with [/mnt/a] below [/mnt] below the root, and a file system in
    which only the marker [/mnt/disk] exists. *)
Definition parent_lib : GoLib := {|
  Separator := "/"%char;
  filepath_Rel := λ _ targpath, targpath;
  norm_NFC := λ s, s;
  path_Dir := λ p, match p with
                   | "/mnt/a" => "/mnt"
                   | "/mnt" => "/"
                   | _ => "/"
                   end;
  Regexp := string → bool;
  MatchString := λ re s, re s;
  md5_Sum := λ s, s
|}.

Definition parent_world : World := {|
  os_ReadFile := λ _, None;
  WalkDir := λ _, [];
  os_Stat := λ p, if decide (p = "/mnt/disk") then Some 3 else None;
  os_Open := λ _, None;
  MkdirAll_ok := true;
  os_OpenFile_ok := λ _, true;
  writable := λ _, true;
  Fprintf_ok := λ _, true;
  time_Now := 0
|}.

Definition example_Join : string → string → string := λ dir name, dir +:+ "/" +:+ name.

(** [n] times the byte [c]. *)
Fixpoint repeat_byte (n : nat) (c : ascii) : string :=
  match n with
  | O => EmptyString
  | S n' => String c (repeat_byte n' c)
  end.

(** A line of 65536 bytes [a], without colon: the shortest line that the
    buffer of a scanner does not hold. *)
Definition overlong_line : string := repeat_byte (Z.to_nat MaxScanTokenSize) "a".

(** A fingerprint file with the record of [f], the overlong line and a
    line with two colons. *)
Definition example_overlong : string :=
  concat_lines [("f", "abc")] +:+ overlong_line +:+ newline +:+ "c:2:3" +:+ newline.









(** * Properties *)

(** ** Strings *)

Lemma app_cons (c : ascii) (a b : string) : String c a +:+ b = String c (a +:+ b).
Proof. reflexivity. Qed.

Lemma app_empty_l (s : string) : EmptyString +:+ s = s.
Proof. reflexivity. Qed.

Lemma app_empty_r (s : string) : s +:+ EmptyString = s.
Proof. induction s as [|c s IH]; [done|]. by rewrite app_cons, IH. Qed.

Lemma app_assoc_s (a b c : string) : (a +:+ b) +:+ c = a +:+ b +:+ c.
Proof. induction a as [|x a IH]; [done|]. by rewrite !app_cons, IH. Qed.

Lemma Split_length (sep : ascii) (s : string) :
  length (Split sep s) = S (count_byte sep s).
Proof.
  induction s as [|c s IH]; simpl; [done|].
  destruct (decide (c = sep)); simpl; [by rewrite IH|].
  destruct (Split sep s); simpl in *; lia.
Qed.

Lemma Split_two_iff (s : string) :
  length (Split ":" s) = 2%nat ↔ count_byte ":" s = 1%nat.
Proof. rewrite Split_length. lia. Qed.


(** ** The prior fingerprint file *)

Lemma makeHashMap_loop_good (file : string) (lines : list string) :
  ∀ i m, Forall well_formed_line lines →
    ∃ m', makeHashMap_loop file i lines m = Ok m'.
Proof.
  induction lines as [|line lines IH]; intros i m Hall; simpl; [eauto|].
  apply Forall_cons in Hall as [Hl Hall].
  apply Split_two_iff in Hl. rewrite Hl. simpl. by apply IH.
Qed.

Lemma makeHashMap_loop_first_bad (file : string) (lines : list string) :
  ∀ i m k bad,
    lines !! k = Some bad →
    ¬ well_formed_line bad →
    (∀ j l, (j < k)%nat → lines !! j = Some l → well_formed_line l) →
    makeHashMap_loop file i lines m = Fatal (HashFileCorrupt file (i + k)).
Proof.
  induction lines as [|line lines IH]; intros i m k bad Hk Hbad Hbefore; [done|].
  destruct k as [|k]; simpl in *.
  - injection Hk as ->.
    destruct (length (Split ":" bad) =? 2)%nat eqn:E.
    + apply Nat.eqb_eq, Split_two_iff in E. by destruct Hbad.
    + simpl. by rewrite Nat.add_0_r.
  - assert (well_formed_line line) as Hl by (apply (Hbefore 0%nat); [lia|done]).
    apply Split_two_iff in Hl. rewrite Hl. simpl.
    rewrite (IH (S i) _ k bad); [f_equal; f_equal; lia|done|done|].
    intros j l Hj Hjl. apply (Hbefore (S j)); [lia|done].
Qed.

Lemma first_bad_line (lines : list string) (n : nat) (line : string) :
  lines !! n = Some line → ¬ well_formed_line line →
  ∃ k bad, (k ≤ n)%nat ∧ lines !! k = Some bad ∧ ¬ well_formed_line bad ∧
    ∀ j l, (j < k)%nat → lines !! j = Some l → well_formed_line l.
Proof.
  revert n. induction lines as [|x lines IH]; intros n Hn Hbad; [done|].
  destruct (decide (well_formed_line x)) as [Hx|Hx].
  - destruct n as [|n]; simpl in Hn; [by simplify_eq|].
    destruct (IH n Hn Hbad) as (k & bad & Hle & Hk & Hb & Hbefore).
    exists (S k), bad. split_and!; [lia|done|done|].
    intros [|j] l Hj Hl; simpl in Hl; [by simplify_eq|].
    apply (Hbefore j); [lia|done].
  - exists 0%nat, x. split_and!; [lia|done|done|]. intros; lia.
Qed.

(** X17.  A line that the scanner yields from the prior fingerprint file
    and that has no colon, or two or more (a line that [strings.Split]
    does not cut into exactly two tokens), makes [makeHashMap] end the
    process: the result is the fatal error that names the hash file and
    the number, counted from one, of the first such line; every line
    before it is well formed, so none was skipped. *)
Theorem makeHashMap_corrupt_line_is_fatal (out : OutDir) (diskInfo : DiskInfo)
    (content : string) (n : nat) (line : string) :
  out !! hashFile diskInfo = Some content →
  ScanLines content !! n = Some line →
  count_byte ":" line ≠ 1%nat →
  ∃ k bad,
    (k ≤ n)%nat ∧ ScanLines content !! k = Some bad ∧
    count_byte ":" bad ≠ 1%nat ∧ length (Split ":" bad) ≠ 2%nat ∧
    (∀ j l, (j < k)%nat → ScanLines content !! j = Some l → count_byte ":" l = 1%nat) ∧
    makeHashMap out diskInfo = Fatal (HashFileCorrupt (hashFile diskInfo) (S k)).
Proof.
  intros Hfile Hn Hbad.
  destruct (first_bad_line _ _ _ Hn Hbad) as (k & bad & Hle & Hk & Hb & Hbefore).
  exists k, bad. split_and!; try done.
  - by rewrite Split_two_iff.
  - unfold makeHashMap. rewrite Hfile.
    by rewrite (makeHashMap_loop_first_bad _ _ 1 ∅ k bad).
Qed.

Lemma makeHashMap_corrupt_line_is_fatal_witness :
  ∃ k bad,
    (k ≤ 2)%nat ∧ ScanLines example_corrupt !! k = Some bad ∧
    count_byte ":" bad ≠ 1%nat ∧ length (Split ":" bad) ≠ 2%nat ∧
    (∀ j l, (j < k)%nat → ScanLines example_corrupt !! j = Some l →
       count_byte ":" l = 1%nat) ∧
    makeHashMap {[ "A1" := example_corrupt ]} example_disk
      = Fatal (HashFileCorrupt (hashFile example_disk) (S k)).
Proof.
  apply (makeHashMap_corrupt_line_is_fatal _ example_disk _ 2 "c:2:3").
  - reflexivity.
  - reflexivity.
  - simpl. lia.
Defined.

(** ** The filter rules *)

Section FilterEngine.
Context `{GoLib}.

Lemma filterFile_loop_skip (before rest : list Filter) (normPath : string) :
  Forall (no_match normPath) before →
  filterFile_loop (before ++ rest) normPath = filterFile_loop rest normPath.
Proof.
  induction 1 as [|rule before Hrule _ IH]; simpl; [done|].
  unfold no_match in Hrule. by rewrite Hrule.
Qed.

(** C4.  [filterFile] returns the inclusion flag of the first rule whose
    pattern matches the path, whatever the rules after it are; it returns
    false when no rule matches, and so for every path when there is no
    rule. *)
Theorem filterFile_first_match_wins (config : Config) (normPath : string) :
  (∀ before rule later,
     filters config = before ++ rule :: later →
     Forall (no_match normPath) before →
     MatchString (pattern rule) normPath = true →
     filterFile config normPath = inclusion rule ∧
     ∀ later', filterFile_loop (before ++ rule :: later') normPath = inclusion rule) ∧
  (Forall (no_match normPath) (filters config) → filterFile config normPath = false) ∧
  (filters config = [] → filterFile config normPath = false).
Proof.
  unfold filterFile. split_and!.
  - intros before rule later -> Hbefore Hrule.
    split; [|intros later']; rewrite filterFile_loop_skip by done; simpl; by rewrite Hrule.
  - intros Hall. rewrite <-(app_nil_r (filters config)).
    by rewrite filterFile_loop_skip.
  - by intros ->.
Qed.

End FilterEngine.

(** The rules [-x], [+.*] (with the first one matching exactly the path
    [x]): the path [x] is excluded by the first rule although the second
    one, which includes everything, matches it too. *)
Lemma filterFile_first_match_wins_witness :
  let deny_x := @Build_Filter example_lib (λ p, String.eqb p "x") false in
  let allow := @Build_Filter example_lib (λ _, true) true in
  @filterFile example_lib (@Build_Config example_lib "home" [deny_x; allow]) "x" = false ∧
  @filterFile example_lib (@Build_Config example_lib "home" [deny_x; allow]) "y" = true.
Proof.
  intros deny_x allow. split.
  - apply (proj1 (@filterFile_first_match_wins example_lib
                    (@Build_Config example_lib "home" [deny_x; allow]) "x")
             [] deny_x [allow]); [reflexivity|constructor|reflexivity].
  - apply (proj1 (@filterFile_first_match_wins example_lib
                    (@Build_Config example_lib "home" [deny_x; allow]) "y")
             [deny_x] allow []); [reflexivity|repeat constructor|reflexivity].
Defined.

(** ** Disk markers *)

Lemma take_while_split (p : ascii → bool) (s : string) :
  ∃ rest, s = take_while p s +:+ rest ∧
    string_forallb p (take_while p s) = true ∧ take_while p rest = EmptyString.
Proof.
  induction s as [|c s (rest & Hs & Hall & Hrest)]; simpl.
  - by exists EmptyString.
  - destruct (p c) eqn:Hc.
    + exists rest. simpl. rewrite Hc, Hall, app_cons. split_and!; [congruence|done|done].
    + exists (String c s). simpl. by rewrite Hc.
Qed.

Lemma take_while_app (p : ascii → bool) (ds rest : string) :
  string_forallb p ds = true → take_while p rest = EmptyString →
  take_while p (ds +:+ rest) = ds.
Proof.
  induction ds as [|c ds IH]; simpl; [done|].
  intros [Hc Hds]%andb_true_iff Hrest. rewrite Hc. f_equal. by apply IH.
Qed.

Lemma diskPattern_match (content : string) (m : list string) :
  diskPattern_FindStringSubmatch content = Some m ↔
  ∃ id, m = [id; id] ∧ marker_id content id.
Proof.
  split.
  - destruct content as [|c s]; simpl; [done|].
    destruct (is_upper c) eqn:Hc; [|done].
    destruct (take_while_split is_digit s) as (rest & Hs & Hall & Hrest).
    destruct (take_while is_digit s) as [|d ds] eqn:Hds; [done|].
    intros [= <-]. eexists. split; [done|].
    exists c, (String d ds), rest. by rewrite <-Hs.
  - intros (id & -> & c & ds & rest & -> & -> & Hc & Hne & Hall & Hrest).
    simpl. rewrite Hc, take_while_app by done. by destruct ds.
Qed.

Lemma diskPattern_no_match (content : string) :
  diskPattern_FindStringSubmatch content = None ↔ ∀ id, ¬ marker_id content id.
Proof.
  split.
  - intros Hnone id Hid.
    assert (diskPattern_FindStringSubmatch content = Some [id; id]) as Hsome
      by (apply diskPattern_match; eauto).
    congruence.
  - intros Hno. destruct (diskPattern_FindStringSubmatch content) as [m|] eqn:E; [|done].
    apply diskPattern_match in E as (id & _ & Hid). by destruct (Hno id).
Qed.

Section DiskCatalog.
Context `{GoLib}.

Lemma makeDiskInfoList_loop_spec (w : World) (diskFiles : list string) :
  ∀ acc,
    match makeDiskInfoList_loop w diskFiles acc with
    | Ok l =>
        ∃ new, l = acc ++ new ∧ Forall2 (accepted w) diskFiles new ∧
          ∀ i d, new !! i = Some d → index d = (length acc + i)%nat
    | Fatal e => ∃ diskFile, diskFile ∈ diskFiles ∧ refused w diskFile e
    end.
Proof.
  induction diskFiles as [|f fs IH]; intros acc; simpl.
  - exists []. rewrite app_nil_r. split_and!; [done|constructor|done].
  - destruct (os_ReadFile w f) as [content|] eqn:Hread.
    + destruct (diskPattern_FindStringSubmatch content) as [m|] eqn:Hm.
      * apply diskPattern_match in Hm as (i0 & -> & Hid). simpl.
        specialize (IH (acc ++ [{| index := length acc; id := i0; rootPath := path_Dir f |}])).
        destruct (makeDiskInfoList_loop w fs _) as [l|e].
        -- destruct IH as (new & -> & Hall & Hidx).
           exists ({| index := length acc; id := i0; rootPath := path_Dir f |} :: new).
           split_and!.
           ++ by rewrite <-app_assoc.
           ++ constructor; [|done]. by exists content.
           ++ intros [|i] d Hd; simpl in Hd.
              ** injection Hd as <-. simpl. lia.
              ** rewrite (Hidx i d Hd), length_app. simpl. lia.
        -- destruct IH as (g & Hg & Href). exists g. split; [by right|done].
      * exists f. split; [by left|]. right. exists content.
        by rewrite <-diskPattern_no_match.
    + exists f. split; [by left|]. by left.
Qed.

(** C2, as amended.  [makeDiskInfoList] accepts a marker file exactly when
    its content starts with ONE upper-case letter followed by one or more
    digits; the id is that letter with the longest run of digits after it.
    On success every marker was accepted so, in order, with the index its
    position and the root the directory of the marker; otherwise the
    process ends on a marker that is absent or does not start so. *)
Theorem makeDiskInfoList_accepts_one_letter_ids (w : World) (diskFiles : list string) :
  match makeDiskInfoList w diskFiles with
  | Ok l =>
      Forall2 (accepted w) diskFiles l ∧ ∀ i d, l !! i = Some d → index d = i
  | Fatal e => ∃ diskFile, diskFile ∈ diskFiles ∧ refused w diskFile e
  end.
Proof.
  unfold makeDiskInfoList.
  pose proof (makeDiskInfoList_loop_spec w diskFiles []) as Hspec.
  destruct (makeDiskInfoList_loop w diskFiles []) as [l|e]; [|done].
  destruct Hspec as (new & -> & Hall & Hidx). split; [done|].
  intros i d Hd. by rewrite (Hidx i d Hd).
Qed.

End DiskCatalog.

(** C2, as stated, fails: the marker [AB1] starts with upper-case letters
    followed by a digit, and the specification gives it the id [AB1], but
    [makeDiskInfoList] ends the process on it. *)
Lemma makeDiskInfoList_refuses_AB1 :
  marker_id_spec "AB1" "AB1" ∧
  @makeDiskInfoList example_lib (example_world "AB1" None None) ["D/disk"]
    = Fatal (DiskFileMalformed "D/disk").
Proof.
  split; [|reflexivity].
  exists "AB", "1", "". by split_and!.
Qed.

(** ** The incremental file lister *)

Lemma concat_lines_app (l1 l2 : list (string * string)) :
  concat_lines (l1 ++ l2) = concat_lines l1 +:+ concat_lines l2.
Proof.
  induction l1 as [|[p h] l1 IH]; simpl; [done|]. by rewrite IH, app_assoc_s.
Qed.

Lemma omap_length_filter {A B} (f : A → option B) (P : A → Prop)
    `{∀ x, Decision (P x)} (l : list A) :
  (∀ x, is_Some (f x) ↔ P x) → length (omap f l) = length (filter P l).
Proof.
  intros Hf. induction l as [|x l IH]; [done|].
  rewrite filter_cons. simpl. destruct (f x) as [y|] eqn:E.
  - rewrite decide_True by (apply Hf; eauto). simpl. f_equal. exact IH.
  - rewrite decide_False; [exact IH|]. rewrite <-Hf, E. by intros [? ?].
Qed.

Section IncrementalFileLister.
Context `{GoLib}.

Lemma listFileInfo_loop (w : World) (config : Config) (diskInfo : DiskInfo)
    (hashMap : gmap string string) (files : list string) (st : listing) :
  let st' := foldl (listFileInfo_step w config diskInfo hashMap) st files in
  trimmedHashs st' = trimmedHashs st +:+ concat_lines (carried diskInfo hashMap files) ∧
  fileInfoList st' = fileInfoList st ++ to_hash config diskInfo hashMap files.
Proof.
  revert st. induction files as [|file files IH]; intros st; simpl.
  - by rewrite app_empty_r, app_nil_r.
  - destruct (IH (listFileInfo_step w config diskInfo hashMap st file)) as [Ht Hq].
    rewrite Ht, Hq. clear IH Ht Hq.
    unfold listFileInfo_step, carried, to_hash. simpl.
    destruct (hashMap !! norm_NFC (filepath_ToSlash (filepath_Rel (rootPath diskInfo) file)))
      as [h|]; simpl.
    + split; [|done]. unfold record_line. by rewrite !app_assoc_s.
    + destruct (filterFile config _); [|done].
      destruct (FileInfo_size w _) as [size fi']. simpl.
      split; [done|]. by rewrite <-app_assoc.
Qed.

Lemma listFileInfo_ok (w : World) (config : Config) (out : OutDir)
    (diskInfo : DiskInfo) (hashMap : gmap string string) :
  makeHashMap out diskInfo = Ok hashMap →
  writable w (hashFile diskInfo) = true →
  ∃ totalSize,
    listFileInfo w config out diskInfo =
      Ok (to_hash config diskInfo hashMap (listFiles w (rootPath diskInfo)), totalSize,
          <[hashFile diskInfo :=
              concat_lines (carried diskInfo hashMap (listFiles w (rootPath diskInfo)))]> out).
Proof.
  intros Hmap Hw. unfold listFileInfo. rewrite Hmap, Hw. simpl.
  destruct (listFileInfo_loop w config diskInfo hashMap (listFiles w (rootPath diskInfo))
              {| trimmedHashs := ""; fileInfoList := []; totalSize := 0 |}) as [Ht Hq].
  simpl in Ht, Hq. rewrite Ht, Hq, app_empty_l. eauto.
Qed.

Lemma elem_of_carried (diskInfo : DiskInfo) (hashMap : gmap string string)
    (files : list string) (p h : string) :
  (p, h) ∈ carried diskInfo hashMap files ↔
  ∃ file, file ∈ files ∧ normPath (FileInfo_init diskInfo file) = p ∧ hashMap !! p = Some h.
Proof.
  unfold carried. rewrite list_elem_of_omap. split.
  - intros (file & Hin & Hf). exists file. split; [done|].
    destruct (hashMap !! normPath (FileInfo_init diskInfo file)) as [h'|] eqn:E;
      simpl in Hf; [|done].
    injection Hf as <- <-. done.
  - intros (file & Hin & <- & Hh). exists file. split; [done|]. by rewrite Hh.
Qed.

Lemma carried_app (diskInfo : DiskInfo) (hashMap : gmap string string)
    (l1 l2 : list string) :
  carried diskInfo hashMap (l1 ++ l2) = carried diskInfo hashMap l1 ++ carried diskInfo hashMap l2.
Proof. apply omap_app. Qed.

Lemma carried_cons_found (diskInfo : DiskInfo) (hashMap : gmap string string)
    (file : string) (files : list string) (h : string) :
  hashMap !! normPath (FileInfo_init diskInfo file) = Some h →
  carried diskInfo hashMap (file :: files) =
    (normPath (FileInfo_init diskInfo file), h) :: carried diskInfo hashMap files.
Proof. intros Hh. unfold carried. simpl in *. by rewrite Hh. Qed.

Lemma carried_length (diskInfo : DiskInfo) (hashMap : gmap string string)
    (files : list string) :
  length (carried diskInfo hashMap files) =
  length (filter (λ file, is_Some (hashMap !! normPath (FileInfo_init diskInfo file))) files).
Proof.
  apply omap_length_filter. intros file. by rewrite fmap_is_Some.
Qed.

(** C1.  When [listFileInfo] completes (which it does when the prior
    fingerprint file is well formed and the hash file can be written), the
    fingerprint file of the disk holds exactly the carry-forward records:
    one line [path:digest] for every file visited in the walk whose
    canonical path the prior mapping holds, with the prior digest, and no
    line for a path that the walk did not visit. *)
Theorem listFileInfo_writes_exactly_carried (w : World) (config : Config) (out : OutDir)
    (diskInfo : DiskInfo) (hashMap : gmap string string) :
  makeHashMap out diskInfo = Ok hashMap →
  writable w (hashFile diskInfo) = true →
  let files := listFiles w (rootPath diskInfo) in
  let records := carried diskInfo hashMap files in
  ∃ queue totalSize out',
    listFileInfo w config out diskInfo = Ok (queue, totalSize, out') ∧
    out' !! hashFile diskInfo = Some (concat_lines records) ∧
    (∀ p h, (p, h) ∈ records ↔
       ∃ file, file ∈ files ∧ normPath (FileInfo_init diskInfo file) = p ∧
         hashMap !! p = Some h) ∧
    length records =
      length (filter (λ file, is_Some (hashMap !! normPath (FileInfo_init diskInfo file)))
                files) ∧
    (∀ p h, (∀ file, file ∈ files → normPath (FileInfo_init diskInfo file) ≠ p) →
       (p, h) ∉ records).
Proof.
  intros Hmap Hw files records.
  destruct (listFileInfo_ok w config out diskInfo hashMap Hmap Hw) as [totalSize Hrun].
  eexists _, totalSize, _. split; [exact Hrun|]. split_and!.
  - by rewrite lookup_insert_eq.
  - apply elem_of_carried.
  - apply carried_length.
  - intros p h Hgone (file & Hin & Hp & _)%elem_of_carried. by apply (Hgone file).
Qed.

(** C9.  A file of the walk whose canonical path the prior mapping holds
    is carried forward whatever the filter rules are: the rewritten
    fingerprint file is made of whole lines, the carry-forward lines of
    the files walked before it, then its own line [path:digest] with the
    prior digest, then those of the files walked after it; the file is not
    queued for hashing; and the rewritten output directory is the same
    under every other set of rules. *)
Theorem listFileInfo_carries_forward_unfiltered (w : World) (config : Config)
    (out : OutDir) (diskInfo : DiskInfo) (hashMap : gmap string string)
    (file h : string) :
  makeHashMap out diskInfo = Ok hashMap →
  writable w (hashFile diskInfo) = true →
  file ∈ listFiles w (rootPath diskInfo) →
  hashMap !! normPath (FileInfo_init diskInfo file) = Some h →
  ∃ queue totalSize out' before later,
    listFileInfo w config out diskInfo = Ok (queue, totalSize, out') ∧
    listFiles w (rootPath diskInfo) = before ++ file :: later ∧
    out' !! hashFile diskInfo =
      Some (concat_lines (carried diskInfo hashMap before ++
                          (normPath (FileInfo_init diskInfo file), h) ::
                          carried diskInfo hashMap later)) ∧
    (normPath (FileInfo_init diskInfo file), h) ∈
      carried diskInfo hashMap (listFiles w (rootPath diskInfo)) ∧
    (∀ fi, fi ∈ queue → normPath fi ≠ normPath (FileInfo_init diskInfo file)) ∧
    (∀ config', ∃ queue' totalSize',
       listFileInfo w config' out diskInfo = Ok (queue', totalSize', out')).
Proof.
  intros Hmap Hw Hin Hh.
  destruct (listFileInfo_ok w config out diskInfo hashMap Hmap Hw) as [totalSize Hrun].
  pose proof Hin as (l1 & l2 & Hfiles)%list_elem_of_split.
  eexists _, totalSize, _, l1, l2.
  split; [exact Hrun|]. split_and!.
  - done.
  - rewrite lookup_insert_eq, Hfiles. f_equal.
    by rewrite carried_app, (carried_cons_found _ _ _ _ h).
  - apply elem_of_carried. eauto.
  - intros fi Hfi Heq. unfold to_hash in Hfi.
    apply list_elem_of_omap in Hfi as (file' & _ & Hfi).
    destruct (hashMap !! normPath (FileInfo_init diskInfo file')) as [h'|] eqn:E; [done|].
    destruct (filterFile config _); [|done]. injection Hfi as <-. congruence.
  - intros config'.
    destruct (listFileInfo_ok w config' out diskInfo hashMap Hmap Hw) as [totalSize' Hrun'].
    eauto.
Qed.

End IncrementalFileLister.

Lemma listFileInfo_writes_exactly_carried_witness :
  ∃ queue totalSize out',
    @listFileInfo example_lib (example_world "A1" None (Some 5)) include_all
      example_out example_disk = Ok (queue, totalSize, out') ∧
    out' !! "A1" = Some (record_line "f" "abc").
Proof.
  destruct (@listFileInfo_writes_exactly_carried example_lib
              (example_world "A1" None (Some 5)) include_all example_out example_disk
              example_hashMap)
    as (queue & totalSize & out' & Hrun & Hfile & _); [reflexivity|reflexivity|].
  exists queue, totalSize, out'. split; [exact Hrun|exact Hfile].
Defined.

(** The rules exclude every path, and the record of [f] is kept: the
    rewritten file is its line. *)
Lemma listFileInfo_carries_forward_unfiltered_witness :
  @filterFile example_lib exclude_all "f" = false ∧
  ∃ queue totalSize out',
    @listFileInfo example_lib (example_world "A1" None (Some 5)) exclude_all
      example_out example_disk = Ok (queue, totalSize, out') ∧
    out' !! "A1" = Some (record_line "f" "abc").
Proof.
  split; [reflexivity|].
  destruct (@listFileInfo_carries_forward_unfiltered example_lib
              (example_world "A1" None (Some 5)) exclude_all example_out example_disk
              example_hashMap "D\f" "abc")
    as (queue & totalSize & out' & before & later & Hrun & Hwalk & Hfile & _);
    [reflexivity|reflexivity|by left|reflexivity|].
  exists queue, totalSize, out'. split; [exact Hrun|].
  destruct before as [|file before].
  - injection Hwalk as <-. exact Hfile.
  - injection Hwalk as _ Hwalk. by destruct before.
Defined.

(** ** The canonical path *)






(** ** The merge of the fingerprint files *)

Lemma group_of_Some (fileName group : string) :
  group_of fileName = Some group ↔
  ∃ c digits, fileName = String c digits ∧ group = String c EmptyString ∧
    is_upper c = true ∧ digits ≠ EmptyString ∧ string_forallb is_digit digits = true.
Proof.
  unfold group_of, hashFilePattern_FindStringSubmatch.
  destruct fileName as [|c ds].
  - split; [done|]. by intros (? & ? & ? & _).
  - destruct (is_upper c) eqn:Hc; simpl.
    + destruct (String.eqb ds "") eqn:Hds; simpl.
      * apply String.eqb_eq in Hds as ->.
        split; [done|]. intros (? & ? & [= <- <-] & _ & _ & ? & _). done.
      * apply String.eqb_neq in Hds.
        destruct (string_forallb is_digit ds) eqn:Hall.
        -- split.
           ++ intros [= <-]. by exists c, ds.
           ++ by intros (? & ? & [= <- <-] & -> & _).
        -- split; [done|]. intros (? & ? & [= <- <-] & _ & _ & _ & ?). congruence.
    + split; [done|]. intros (? & ? & [= <- <-] & _ & ? & _). congruence.
Qed.

Lemma group_of_group (fileName group : string) :
  group_of fileName = Some group → group_of group = None.
Proof.
  intros (c & ds & _ & -> & Hc & _)%group_of_Some.
  unfold group_of. simpl. by rewrite Hc.
Qed.

Lemma scan_into_filter (lines mergedHashes : list string) :
  scan_into mergedHashes lines =
  mergedHashes ++ filter (λ line, line ≠ EmptyString) lines.
Proof.
  revert mergedHashes. induction lines as [|line lines IH]; intros acc; simpl.
  - by rewrite app_nil_r.
  - rewrite filter_cons. case_decide; rewrite IH; [|done]. by rewrite <-app_assoc.
Qed.

Lemma integrate_file_eq (out : OutDir) (m : gmap string (list string)) (fileName : string) :
  integrate_file out m fileName =
  match group_of fileName with
  | Some group => <[group := default [] (m !! group) ++ file_lines out fileName]> m
  | None => m
  end.
Proof.
  unfold integrate_file, group_of, file_lines.
  destruct (hashFilePattern_FindStringSubmatch fileName) as [|m0 [|g rest]] eqn:E; simpl.
  - done.
  - unfold hashFilePattern_FindStringSubmatch in E.
    destruct fileName; [done|]. by destruct (_ && _ && _)%bool.
  - by rewrite scan_into_filter.
Qed.

Lemma group_lines_none (out : OutDir) (group : string) (fileNames : list string) :
  ¬ in_group group fileNames → group_lines out group fileNames = [].
Proof.
  unfold in_group, group_lines. induction fileNames as [|f fs IH]; [done|].
  intros Hno. rewrite bind_cons.
  rewrite decide_False by (intros Hf; apply Hno; by left).
  apply IH. intros Hfs. apply Hno. by right.
Qed.

Lemma foldl_integrate_lookup (out : OutDir) (group : string) (fileNames : list string) :
  ∀ m, foldl (integrate_file out) m fileNames !! group =
    if decide (in_group group fileNames)
    then Some (default [] (m !! group) ++ group_lines out group fileNames)
    else m !! group.
Proof.
  unfold in_group. induction fileNames as [|f fs IH]; intros m.
  - cbn [foldl]. rewrite decide_False; [done|]. by intros ?%Exists_nil.
  - cbn [foldl]. rewrite IH, integrate_file_eq. unfold group_lines at 2. rewrite bind_cons.
    fold (group_lines out group fs).
    destruct (group_of f) as [g|] eqn:Hf.
    + destruct (decide (g = group)) as [->|Hne].
      * rewrite (decide_True (P := Some group = Some group)) by done.
        rewrite lookup_insert_eq. cbn [from_option]. unfold Datatypes.id at 1.
        rewrite (decide_True (P := Exists _ (f :: fs))) by (by left).
        destruct (decide (Exists _ fs)) as [Hfs|Hfs].
        -- by rewrite <-app_assoc.
        -- by rewrite (group_lines_none out group fs Hfs), app_nil_r.
      * rewrite (decide_False (P := Some g = Some group)) by congruence.
        rewrite lookup_insert_ne by done. rewrite app_nil_l.
        destruct (decide (Exists _ fs)) as [Hfs|Hfs].
        -- by rewrite decide_True by (by right).
        -- rewrite decide_False; [done|]. intros [?|?]%Exists_cons; [congruence|done].
    + rewrite (decide_False (P := None = Some group)) by congruence. rewrite app_nil_l.
      destruct (decide (Exists _ fs)) as [Hfs|Hfs].
      * by rewrite decide_True by (by right).
      * rewrite decide_False; [done|]. intros [?|?]%Exists_cons; [congruence|done].
Qed.

Lemma mergedHashMap_of_lookup (out : OutDir) (group : string) :
  mergedHashMap_of out !! group =
  if decide (in_group group (Glob out))
  then Some (group_lines out group (Glob out)) else None.
Proof.
  unfold mergedHashMap_of. rewrite foldl_integrate_lookup.
  by rewrite lookup_empty.
Qed.

Lemma foldl_write_group_other (entries : list (string * list string)) :
  ∀ (out : OutDir) name, name ∉ entries.*1 → foldl write_group out entries !! name = out !! name.
Proof.
  induction entries as [|[g ls] entries IH]; intros out name Hname; simpl; [done|].
  rewrite fmap_cons in Hname. apply not_elem_of_cons in Hname as [Hne Hname].
  rewrite IH by done. unfold write_group. by rewrite lookup_insert_ne.
Qed.

Lemma foldl_write_group_lookup (entries : list (string * list string)) :
  ∀ (out : OutDir) group ls,
    NoDup entries.*1 → (group, ls) ∈ entries →
    foldl write_group out entries !! group = Some (Fprintln_all (sort_Strings ls)).
Proof.
  induction entries as [|[g ls'] entries IH]; intros out group ls Hnodup Hin; simpl.
  - by apply elem_of_nil in Hin.
  - rewrite fmap_cons in Hnodup. apply NoDup_cons in Hnodup as [Hfresh Hnodup].
    apply elem_of_cons in Hin as [[= -> ->]|Hin].
    + rewrite foldl_write_group_other by done. unfold write_group.
      by rewrite lookup_insert_eq.
    + by apply IH.
Qed.

(** What the merge leaves in the output directory, file by file. *)
Lemma executeHashFileIntegration_lookup (out : OutDir) (name : string) :
  executeHashFileIntegration out !! name =
  match mergedHashMap_of out !! name with
  | Some mergedHashes => Some (Fprintln_all (sort_Strings mergedHashes))
  | None => out !! name
  end.
Proof.
  unfold executeHashFileIntegration.
  destruct (mergedHashMap_of out !! name) as [ls|] eqn:E.
  - apply foldl_write_group_lookup; [apply NoDup_fst_map_to_list|].
    by apply elem_of_map_to_list.
  - apply foldl_write_group_other.
    intros ([g ls] & -> & Hin%elem_of_map_to_list)%list_elem_of_fmap.
    simpl in E. congruence.
Qed.

Lemma elem_of_Glob (out : OutDir) (name : string) :
  name ∈ Glob out ↔ is_Some (out !! name).
Proof.
  unfold Glob, sort_Strings. rewrite merge_sort_Permutation, list_elem_of_fmap. split.
  - intros ([k v] & -> & Hin%elem_of_map_to_list). eauto.
  - intros [v Hv]. exists (name, v). split; [done|]. by apply elem_of_map_to_list.
Qed.

Lemma NoDup_Glob (out : OutDir) : NoDup (Glob out).
Proof.
  unfold Glob, sort_Strings. rewrite merge_sort_Permutation.
  apply NoDup_fst_map_to_list.
Qed.

Lemma sort_Strings_Permutation (l1 l2 : list string) :
  l1 ≡ₚ l2 → sort_Strings l1 = sort_Strings l2.
Proof.
  intros Hperm. unfold sort_Strings.
  apply (Sorted_unique String.le); [apply Sorted_merge_sort, _..|].
  by rewrite !merge_sort_Permutation.
Qed.

Lemma group_lines_unchanged (out out' : OutDir) (group : string) (fileNames : list string) :
  (∀ name, group_of name = Some group → out' !! name = out !! name) →
  group_lines out' group fileNames = group_lines out group fileNames.
Proof.
  intros Hsame. unfold group_lines. apply list_bind_ext; [|done].
  intros name. case_decide; [|done]. unfold file_lines. by rewrite Hsame.
Qed.

Lemma group_lines_filter (out : OutDir) (group : string) (fileNames : list string) :
  group_lines out group fileNames =
  group_lines out group (filter (λ name, group_of name = Some group) fileNames).
Proof.
  unfold group_lines. induction fileNames as [|f fs IH]; [done|].
  rewrite filter_cons, bind_cons. case_decide.
  - rewrite bind_cons, decide_True by done. by rewrite IH.
  - by rewrite IH.
Qed.


(** The files that are inputs of the merge are left as they were. *)
Lemma executeHashFileIntegration_input (out : OutDir) (name group : string) :
  group_of name = Some group → executeHashFileIntegration out !! name = out !! name.
Proof.
  intros Hname. rewrite executeHashFileIntegration_lookup, mergedHashMap_of_lookup.
  rewrite decide_False; [done|].
  intros (f & _ & Hf)%Exists_exists.
  apply group_of_group in Hf. congruence.
Qed.

Lemma in_group_after (out : OutDir) (group : string) :
  in_group group (Glob (executeHashFileIntegration out)) ↔ in_group group (Glob out).
Proof.
  unfold in_group. rewrite !Exists_exists. split; intros (name & Hin & Hname);
    exists name; (split; [|done]); apply elem_of_Glob; apply elem_of_Glob in Hin.
  - by rewrite <-(executeHashFileIntegration_input out name group).
  - by rewrite (executeHashFileIntegration_input out name group).
Qed.

Lemma group_lines_after (out : OutDir) (group : string) :
  group_lines (executeHashFileIntegration out) group (Glob (executeHashFileIntegration out))
  ≡ₚ group_lines out group (Glob out).
Proof.
  rewrite (group_lines_unchanged out (executeHashFileIntegration out))
    by (intros name Hname; by apply (executeHashFileIntegration_input out name group)).
  rewrite (group_lines_filter out group (Glob (executeHashFileIntegration out))).
  rewrite (group_lines_filter out group (Glob out)).
  unfold group_lines. apply bind_Permutation.
  apply NoDup_Permutation; [apply NoDup_filter, NoDup_Glob..|].
  intros name. rewrite !list_elem_of_filter, !elem_of_Glob. split; intros [Hname Hin].
  - split; [done|]. by rewrite <-(executeHashFileIntegration_input out name group).
  - split; [done|]. by rewrite (executeHashFileIntegration_input out name group).
Qed.

Lemma group_lines_same_inputs (out out' : OutDir) (group : string) :
  (∀ name, group_of name = Some group → out' !! name = out !! name) →
  (in_group group (Glob out') ↔ in_group group (Glob out)) ∧
  group_lines out' group (Glob out') ≡ₚ group_lines out group (Glob out).
Proof.
  intros Hsame. split.
  - unfold in_group. rewrite !Exists_exists. split; intros (name & Hin & Hname);
      exists name; (split; [|done]); apply elem_of_Glob; apply elem_of_Glob in Hin.
    + by rewrite <-(Hsame name).
    + by rewrite (Hsame name).
  - rewrite (group_lines_unchanged out out') by done.
    rewrite (group_lines_filter out group (Glob out')).
    rewrite (group_lines_filter out group (Glob out)).
    unfold group_lines. apply bind_Permutation.
    apply NoDup_Permutation; [apply NoDup_filter, NoDup_Glob..|].
    intros name. rewrite !list_elem_of_filter, !elem_of_Glob. split; intros [Hname Hin].
    + split; [done|]. by rewrite <-(Hsame name).
    + split; [done|]. by rewrite (Hsame name).
Qed.

(** C10.  The merge reads a file only when its name is one upper-case
    letter followed by one or more digits; the file it writes for a group
    is named by the letter alone, which the pattern does not match, so a
    merged file is never an input, the inputs are left as they were, and
    merging again changes nothing. *)
Theorem merge_never_reads_its_output (out : OutDir) :
  (∀ name group, group_of name = Some group ↔
     ∃ c digits, name = String c digits ∧ group = String c EmptyString ∧
       is_upper c = true ∧ digits ≠ EmptyString ∧ string_forallb is_digit digits = true) ∧
  (∀ m name, group_of name = None → integrate_file out m name = m) ∧
  (∀ name, executeHashFileIntegration out !! name ≠ out !! name →
     group_of name = None ∧ ∃ input, is_Some (out !! input) ∧ group_of input = Some name) ∧
  (∀ name group, group_of name = Some group →
     group_of group = None ∧ executeHashFileIntegration out !! name = out !! name) ∧
  executeHashFileIntegration (executeHashFileIntegration out) = executeHashFileIntegration out.
Proof.
  split_and!.
  - apply group_of_Some.
  - intros m name Hname. by rewrite integrate_file_eq, Hname.
  - intros name Hchanged.
    rewrite executeHashFileIntegration_lookup, mergedHashMap_of_lookup in Hchanged.
    destruct (decide (in_group name (Glob out))) as [Hin|Hin]; [|done].
    apply Exists_exists in Hin as (input & Hin & Hinput). split.
    + by apply (group_of_group input).
    + exists input. split; [by apply elem_of_Glob|done].
  - intros name group Hname. split; [by apply (group_of_group name)|].
    by apply (executeHashFileIntegration_input out name group).
  - apply map_eq. intros name.
    rewrite (executeHashFileIntegration_lookup (executeHashFileIntegration out)).
    rewrite (mergedHashMap_of_lookup (executeHashFileIntegration out)).
    destruct (decide (in_group name (Glob (executeHashFileIntegration out)))) as [Hin|Hin];
      [|done].
    rewrite (sort_Strings_Permutation _ _ (group_lines_after out name)).
    rewrite (executeHashFileIntegration_lookup out), mergedHashMap_of_lookup.
    by rewrite decide_True by (by apply in_group_after).
Qed.

(** ** The worker of a disk *)

Lemma u64_small (z : Z) : 0 ≤ z < 2 ^ 64 → u64 z = z.
Proof. intros Hz. unfold u64. by apply Z.mod_small. Qed.

Lemma u64_range (z : Z) : 0 ≤ u64 z < 2 ^ 64.
Proof. unfold u64. apply Z.mod_pos_bound. lia. Qed.

Lemma bytes_consumed_nonneg (reads : list (string * read_err)) : 0 ≤ bytes_consumed reads.
Proof.
  induction reads as [|[buffer e] reads IH]; simpl; [done|].
  case_decide; [done|]. destruct e; lia.
Qed.

Lemma size_after_nonneg (w : World) (fi : FileInfo) : 0 ≤ size_after w fi.
Proof.
  unfold size_after, FileInfo_size. case_decide; simpl; [apply u64_range|].
  destruct (os_Stat w (realPath fi)); simpl; [apply u64_range|done].
Qed.

Lemma sum_sizes_nonneg (w : World) (fileInfoList : list FileInfo) :
  0 ≤ sum_sizes w fileInfoList.
Proof.
  induction fileInfoList as [|fi fis IH]; simpl; [done|].
  pose proof (size_after_nonneg w fi). lia.
Qed.

(** The records the listing queues have their size unresolved: the copy
    is appended to the list before [size] is called on the original. *)
Lemma queue_sizes_unresolved `{GoLib} (config : Config) (diskInfo : DiskInfo)
    (hashMap : gmap string string) (files : list string) (fi : FileInfo) :
  fi ∈ to_hash config diskInfo hashMap files → _size fi = -1.
Proof.
  unfold to_hash. intros (file & _ & Hfi)%list_elem_of_omap.
  destruct (hashMap !! _); [done|]. destruct (filterFile _ _); [|done].
  by injection Hfi as <-.
Qed.

Section DiskWorker.
Context `{GoLib}.

Lemma calcHash_loop_sent (file : string) (reads : list (string * read_err)) :
  ∀ hasher p,
    Forall (λ q, fileCount q = fileCount p) (calcHash_loop file reads hasher p).2 ∧
    (0 ≤ processed (sizeCount p) →
     processed (sizeCount p) + bytes_consumed reads < 2 ^ 64 →
     Forall (λ q, processed (sizeCount p) ≤ processed (sizeCount q)
                  ≤ processed (sizeCount p) + bytes_consumed reads)
       (calcHash_loop file reads hasher p).2 ∧
     StronglySorted bytes_le (calcHash_loop file reads hasher p).2).
Proof.
  induction reads as [|[buffer e] reads IH]; intros hasher p; simpl.
  - split; [constructor|]. intros _ _. split; constructor.
  - case_decide as Hlen; simpl.
    { split; [constructor|]. intros _ _. split; constructor. }
    set (p' := with_sizeCount p (Increment (sizeCount p) (Z.of_nat (String.length buffer)))).
    assert (∀ hasher',
      Forall (λ q, fileCount q = fileCount p)
        (p' :: (calcHash_loop file reads hasher' p').2) ∧
      (0 ≤ processed (sizeCount p) →
       processed (sizeCount p) + (Z.of_nat (String.length buffer) + bytes_consumed reads) < 2 ^ 64 →
       Forall (λ q, processed (sizeCount p) ≤ processed (sizeCount q)
                    ≤ processed (sizeCount p) +
                      (Z.of_nat (String.length buffer) + bytes_consumed reads))
         (p' :: (calcHash_loop file reads hasher' p').2) ∧
       StronglySorted bytes_le (p' :: (calcHash_loop file reads hasher' p').2))) as Hstep.
    { intros hasher'. destruct (IH hasher' p') as [Hfiles Hbytes]. split.
      - constructor; [done|]. exact Hfiles.
      - intros Hp Hbound. pose proof (bytes_consumed_nonneg reads) as Hrest.
        assert (processed (sizeCount p') =
                processed (sizeCount p) + Z.of_nat (String.length buffer)) as Hp'
          by (simpl; apply u64_small; lia).
        destruct Hbytes as [Hall Hsorted]; [lia|lia|].
        clearbody p'. split.
        + constructor; [lia|]. eapply Forall_impl; [exact Hall|].
          intros q Hq. cbv beta in Hq |- *. lia.
        + constructor; [done|]. eapply Forall_impl; [exact Hall|].
          unfold bytes_le. intros q Hq. cbv beta in Hq |- *. lia. }
    destruct e; simpl.
    + specialize (Hstep (hasher +:+ buffer)).
      by destruct (calcHash_loop file reads (hasher +:+ buffer) p') as [[hash e'] snapshots].
    + specialize (Hstep (hasher +:+ buffer)).
      by destruct (calcHash_loop file reads (hasher +:+ buffer) p') as [[hash e'] snapshots].
    + split; [constructor|]. intros _ _. split; constructor.
Qed.

Lemma calcHash_sent (w : World) (file : string) (p : ProgressInfo) :
  Forall (λ q, fileCount q = fileCount p) (sent (calcHash w file p).2) ∧
  ∀ bound,
    (∀ reads, os_Open w file = Some reads → bytes_consumed reads ≤ bound) →
    0 ≤ processed (sizeCount p) →
    processed (sizeCount p) + bound < 2 ^ 64 →
    Forall (λ q, processed (sizeCount p) ≤ processed (sizeCount q)
                 ≤ processed (sizeCount p) + bound)
      (sent (calcHash w file p).2) ∧
    StronglySorted bytes_le (sent (calcHash w file p).2).
Proof.
  unfold calcHash. destruct (os_Open w file) as [reads|] eqn:Hopen; simpl.
  - destruct (calcHash_loop_sent file reads EmptyString (with_processingFile p file))
      as [Hfiles Hbytes].
    destruct (calcHash_loop file reads EmptyString (with_processingFile p file))
      as [[hash e] snapshots]. simpl in *.
    split; [done|]. intros bound Hbound Hp Hsum.
    specialize (Hbound reads eq_refl).
    destruct Hbytes as [Hall Hsorted]; [done|lia|]. split; [|done].
    eapply Forall_impl; [exact Hall|]. intros q Hq. simpl in Hq |- *. lia.
  - split; [constructor|]. intros bound _ _ _. split; constructor.
Qed.

Lemma hashRoutine_loop_cons_sent (w : World) (diskInfo : DiskInfo) (fi : FileInfo)
    (fileInfoList : list FileInfo) (p : ProgressInfo) :
  sent (hashing_trace (hashRoutine_loop w diskInfo (fi :: fileInfoList) p)) =
    sent (calcHash w (realPath fi) p).2 ++
    sent (hashing_trace (hashRoutine_loop w diskInfo fileInfoList (next_progress w fi p))) ∨
  sent (hashing_trace (hashRoutine_loop w diskInfo (fi :: fileInfoList) p)) =
    sent (calcHash w (realPath fi) p).2.
Proof.
  unfold next_progress, size_after. simpl.
  destruct (calcHash w (realPath fi) p) as [[hash e] t].
  destruct (FileInfo_size w fi) as [size fi']. simpl.
  destruct e as [e|]; [by left|].
  destruct (Fprintf_ok w _); [by left|by right].
Qed.

Lemma hashRoutine_loop_sent_files (w : World) (diskInfo : DiskInfo)
    (fileInfoList : list FileInfo) :
  ∀ p,
    0 ≤ processed (fileCount p) →
    processed (fileCount p) + Z.of_nat (length fileInfoList) < 2 ^ 64 →
    Forall (λ q, processed (fileCount p) ≤ processed (fileCount q))
      (sent (hashing_trace (hashRoutine_loop w diskInfo fileInfoList p))) ∧
    StronglySorted files_le (sent (hashing_trace (hashRoutine_loop w diskInfo fileInfoList p))).
Proof.
  induction fileInfoList as [|fi fis IH]; intros p Hp Hbound.
  - simpl. split; repeat constructor. lia.
  - destruct (calcHash_sent w (realPath fi) p) as [Hsame _].
    assert (Forall (λ q, processed (fileCount q) = processed (fileCount p))
              (sent (calcHash w (realPath fi) p).2)) as Hfiles
      by (eapply Forall_impl; [exact Hsame|]; by intros q ->).
    assert (processed (fileCount (next_progress w fi p)) = processed (fileCount p) + 1)
      as Hnext by (simpl; apply u64_small; simpl length in Hbound; lia).
    destruct (IH (next_progress w fi p)) as [Hall Hsorted];
      [lia|simpl length in Hbound; lia|].
    rewrite Forall_forall in Hfiles, Hall.
    assert (StronglySorted files_le (sent (calcHash w (realPath fi) p).2)) as Hhead.
    { clear -Hfiles. induction (sent (calcHash w (realPath fi) p).2) as [|q qs IHq];
        constructor.
      - apply IHq. intros x Hx. apply Hfiles. by right.
      - apply Forall_forall. intros x Hx. unfold files_le.
        rewrite (Hfiles q) by (by left). rewrite (Hfiles x) by (by right). lia. }
    destruct (hashRoutine_loop_cons_sent w diskInfo fi fis p) as [-> | ->].
    + split.
      * apply Forall_app. split; apply Forall_forall; intros q Hq.
        -- rewrite (Hfiles q Hq). lia.
        -- specialize (Hall q Hq). lia.
      * apply StronglySorted_app. split_and!; [|done|done].
        intros q1 q2 H1 H2. unfold files_le.
        rewrite (Hfiles q1 H1). specialize (Hall q2 H2). lia.
    + split; [|done]. apply Forall_forall. intros q Hq. rewrite (Hfiles q Hq). lia.
Qed.

Lemma hashRoutine_loop_sent_bytes (w : World) (diskInfo : DiskInfo)
    (fileInfoList : list FileInfo) :
  ∀ p,
    0 ≤ processed (sizeCount p) →
    processed (sizeCount p) + sum_sizes w fileInfoList < 2 ^ 64 →
    Forall (size_covers_reads w) fileInfoList →
    Forall (λ q, processed (sizeCount p) ≤ processed (sizeCount q))
      (sent (hashing_trace (hashRoutine_loop w diskInfo fileInfoList p))) ∧
    StronglySorted bytes_le (sent (hashing_trace (hashRoutine_loop w diskInfo fileInfoList p))).
Proof.
  induction fileInfoList as [|fi fis IH]; intros p Hp Hbound Hcovers.
  - simpl. split; repeat constructor. lia.
  - apply Forall_cons in Hcovers as [Hfi Hcovers].
    pose proof (size_after_nonneg w fi) as Hsize.
    pose proof (sum_sizes_nonneg w fis) as Hsum.
    simpl in Hbound.
    destruct (calcHash_sent w (realPath fi) p) as [_ Hbytes].
    destruct (Hbytes (size_after w fi) Hfi Hp) as [Hhead Hsorted_head]; [lia|].
    assert (processed (sizeCount (next_progress w fi p)) =
            processed (sizeCount p) + size_after w fi)
      as Hnext by (simpl; apply u64_small; lia).
    destruct (IH (next_progress w fi p)) as [Hall Hsorted]; [lia|lia|done|].
    rewrite Forall_forall in Hhead, Hall.
    destruct (hashRoutine_loop_cons_sent w diskInfo fi fis p) as [-> | ->].
    + split.
      * apply Forall_app. split; apply Forall_forall; intros q Hq.
        -- specialize (Hhead q Hq). lia.
        -- specialize (Hall q Hq). lia.
      * apply StronglySorted_app. split_and!; [|done|done].
        intros q1 q2 H1 H2. unfold bytes_le.
        specialize (Hhead q1 H1). specialize (Hall q2 H2). lia.
    + split; [|done]. apply Forall_forall. intros q Hq. specialize (Hhead q Hq). lia.
Qed.

Lemma hashRoutine_Ok (w w' : World) (config : Config) (out : OutDir)
    (diskInfo : DiskInfo) (r : worker) :
  hashRoutine w w' config out diskInfo = Ok r →
  ∃ totalSize p0,
    processed (sizeCount p0) = 0 ∧ processed (fileCount p0) = 0 ∧
    total (sizeCount p0) = totalSize ∧
    sent (worker_trace r) =
      p0 :: sent (hashing_trace (hashRoutine_loop w' diskInfo (worker_queue r) p0)).
Proof.
  unfold hashRoutine.
  destruct (MkdirAll_ok w); [|done]. destruct (os_OpenFile_ok w (hashFile diskInfo)); [|done].
  simpl.
  destruct (listFileInfo w config _ diskInfo) as [[[queue totalSize] out1]|e]; [|done].
  simpl. intros [= <-]. simpl.
  exists totalSize,
    {| progress_diskInfo := diskInfo;
       sizeCount := {| total := totalSize; processed := 0 |};
       fileCount := {| total := u64 (Z.of_nat (length queue)); processed := 0 |};
       processingFile := EmptyString;
       startTime := time_Now w |}.
  by split_and!.
Qed.

(** C7, as amended.  Across the snapshots the worker of a disk sends, in
    the order it sends them, the processed-files counter never decreases;
    the processed-bytes counter never decreases provided that no queued
    file gives more bytes when it is read than the size it is found to
    have once it is done with, and that these sizes add up to less than
    2^64.  (The number of queued files is below 2^64, as the length of a
    Go slice is.) *)
Theorem progress_counters_monotone (w w' : World) (config : Config) (out : OutDir)
    (diskInfo : DiskInfo) (r : worker) :
  hashRoutine w w' config out diskInfo = Ok r →
  Z.of_nat (length (worker_queue r)) < 2 ^ 64 →
  StronglySorted files_le (sent (worker_trace r)) ∧
  (Forall (size_covers_reads w') (worker_queue r) →
   sum_sizes w' (worker_queue r) < 2 ^ 64 →
   StronglySorted bytes_le (sent (worker_trace r))).
Proof.
  intros (totalSize & p0 & Hbytes0 & Hfiles0 & _ & ->)%hashRoutine_Ok Hlen. split.
  - destruct (hashRoutine_loop_sent_files w' diskInfo (worker_queue r) p0) as [Hall Hsorted];
      [lia|lia|].
    by constructor.
  - intros Hcovers Hsum.
    destruct (hashRoutine_loop_sent_bytes w' diskInfo (worker_queue r) p0) as [Hall Hsorted];
      [lia|lia|done|].
    by constructor.
Qed.

End DiskWorker.

(** The file has ten bytes and is found to have ten: the snapshots count
    0, 10, 10 bytes and 0, 0, 1 files. *)
Lemma progress_counters_monotone_witness :
  ∃ r,
    @hashRoutine example_lib (example_world "A1" ten_bytes (Some 10))
      (example_world "A1" ten_bytes (Some 10)) include_all ∅ example_disk = Ok r ∧
    (λ p, processed (sizeCount p)) <$> sent (worker_trace r) = [0; 10; 10] ∧
    StronglySorted files_le (sent (worker_trace r)) ∧
    StronglySorted bytes_le (sent (worker_trace r)).
Proof.
  eexists. split; [vm_compute; reflexivity|]. split; [reflexivity|].
  edestruct (@progress_counters_monotone example_lib
               (example_world "A1" ten_bytes (Some 10))
               (example_world "A1" ten_bytes (Some 10)) include_all ∅ example_disk)
    as [Hfiles Hbytes]; [vm_compute; reflexivity|vm_compute; reflexivity|].
  split; [exact Hfiles|]. apply Hbytes.
  - repeat constructor. intros reads [= <-]. vm_compute. discriminate.
  - vm_compute. reflexivity.
Defined.

(** C7, as stated, fails: a file that gives ten bytes when it is read and
    is found to have four (it shrank, or its file system reports sizes so)
    makes the processed-bytes counter go from 10, in the snapshot sent
    while the file is read, to 4, in the snapshot sent after it. *)
Lemma progress_bytes_decrease :
  ∃ r,
    @hashRoutine example_lib (example_world "A1" ten_bytes (Some 4))
      (example_world "A1" ten_bytes (Some 4)) include_all ∅ example_disk = Ok r ∧
    (λ p, processed (sizeCount p)) <$> sent (worker_trace r) = [0; 10; 4] ∧
    ¬ StronglySorted bytes_le (sent (worker_trace r)).
Proof.
  eexists. split; [vm_compute; reflexivity|]. split; [reflexivity|].
  intros Hsorted.
  apply StronglySorted_cons in Hsorted as [_ Hsorted].
  apply StronglySorted_cons in Hsorted as [Hle _].
  apply Forall_cons in Hle as [Hle _]. vm_compute in Hle. by apply Hle.
Qed.

(** C6, at the failing input.  The file [D\f] has five bytes when the disk
    is listed and is gone when it is to be hashed.  The worker logs the
    failure, writes no line, counts the file as processed and goes on to
    the end; but the record in the queue has no size (it was copied into
    the queue before its size was resolved), so the size is asked again,
    the failed stat gives 0, and the processed bytes stay at 0 of 5: the
    byte budget is never reached. *)
Theorem vanished_file_leaves_budget_short :
  ∃ r,
    @hashRoutine example_lib (example_world "A1" ten_bytes (Some 5))
      (example_world "A1" None None) include_all ∅ example_disk = Ok r ∧
    _size <$> worker_queue r = [-1] ∧
    logged (worker_trace r) = [LogOpenFailed "D\f"; LogHashError "D\f" (ErrOpen "D\f")] ∧
    worker_out r !! "A1" = Some EmptyString ∧
    worker_completion r = {| diskId := "A1"; err := None |} ∧
    fileCount (worker_final r) = {| total := 1; processed := 1 |} ∧
    sizeCount (worker_final r) = {| total := 5; processed := 0 |} ∧
    Completed (sizeCount (worker_final r)) = false.
Proof.
  eexists. split; [vm_compute; reflexivity|]. by vm_compute.
Qed.

(** * More of the pipeline *)

(** ** What the listing queues *)

Section ListingQueue.
Context `{GoLib}.

Lemma u64_add_l (a b : Z) : u64 (u64 a + b) = u64 (a + b).
Proof. unfold u64. by rewrite Zplus_mod_idemp_l. Qed.

Lemma listFileInfo_loop_total (w : World) (config : Config) (diskInfo : DiskInfo)
    (hashMap : gmap string string) (files : list string) :
  ∀ st, totalSize st = u64 (totalSize st) →
    totalSize (foldl (listFileInfo_step w config diskInfo hashMap) st files) =
    u64 (totalSize st + sum_sizes w (to_hash config diskInfo hashMap files)).
Proof.
  induction files as [|file files IH]; intros st Hst.
  - simpl. by rewrite Z.add_0_r.
  - cbn [foldl]. unfold to_hash. cbn [omap list_omap]. fold (to_hash config diskInfo hashMap files).
    unfold listFileInfo_step at 2.
    destruct (hashMap !! normPath (FileInfo_init diskInfo file)) as [h|] eqn:Hh.
    + rewrite IH by done. done.
    + destruct (filterFile config (normPath (FileInfo_init diskInfo file))) eqn:Hf.
      * destruct (FileInfo_size w (FileInfo_init diskInfo file)) as [size fi'] eqn:Hs.
        rewrite IH by (cbn [totalSize]; unfold u64; by rewrite Zmod_mod).
        cbn [totalSize sum_sizes foldr]. fold (sum_sizes w (to_hash config diskInfo hashMap files)).
        unfold size_after. rewrite Hs. cbn [fst].
        rewrite u64_add_l. f_equal. lia.
      * by rewrite IH.
Qed.

Lemma listFileInfo_ok_total (w : World) (config : Config) (out : OutDir)
    (diskInfo : DiskInfo) (hashMap : gmap string string) :
  makeHashMap out diskInfo = Ok hashMap →
  writable w (hashFile diskInfo) = true →
  let queue := to_hash config diskInfo hashMap (listFiles w (rootPath diskInfo)) in
  listFileInfo w config out diskInfo =
    Ok (queue, u64 (sum_sizes w queue),
        <[hashFile diskInfo :=
            concat_lines (carried diskInfo hashMap (listFiles w (rootPath diskInfo)))]> out).
Proof.
  intros Hmap Hw queue. unfold listFileInfo. rewrite Hmap, Hw. simpl.
  destruct (listFileInfo_loop w config diskInfo hashMap (listFiles w (rootPath diskInfo))
              {| trimmedHashs := ""; fileInfoList := []; totalSize := 0 |}) as [Ht Hq].
  rewrite (listFileInfo_loop_total w config diskInfo hashMap) by done.
  simpl in Ht, Hq. rewrite Ht, Hq, app_empty_l. simpl. done.
Qed.

(** X1.  The listing of a disk leaves to hash exactly the files of the
    walk whose canonical path the prior mapping does not hold and the
    rules include, in the order of the walk, each with its size still
    unresolved; the total it returns is the sum, on 64 bits, of the sizes
    [os.Stat] then reports for these files, a failed stat counting 0.  A
    file of the walk is never both carried forward and queued. *)
Theorem listFileInfo_queues_new_included_files (w : World) (config : Config)
    (out : OutDir) (diskInfo : DiskInfo) (hashMap : gmap string string) :
  makeHashMap out diskInfo = Ok hashMap →
  writable w (hashFile diskInfo) = true →
  ∃ queue out',
    listFileInfo w config out diskInfo =
      Ok (queue, u64 (sum_sizes w queue), out') ∧
    queue = FileInfo_init diskInfo <$>
              filter (λ file, hashMap !! normPath (FileInfo_init diskInfo file) = None ∧
                              filterFile config (normPath (FileInfo_init diskInfo file)) = true)
                (listFiles w (rootPath diskInfo)) ∧
    Forall (λ fi, _size fi = -1 ∧
                  size_after w fi = from_option u64 0 (os_Stat w (realPath fi))) queue ∧
    (∀ fi h, fi ∈ queue →
       (normPath fi, h) ∉ carried diskInfo hashMap (listFiles w (rootPath diskInfo))).
Proof.
  intros Hmap Hw.
  assert (∀ files, to_hash config diskInfo hashMap files =
            FileInfo_init diskInfo <$>
              filter (λ file, hashMap !! normPath (FileInfo_init diskInfo file) = None ∧
                              filterFile config (normPath (FileInfo_init diskInfo file)) = true)
                files) as Hqueue.
  { induction files as [|file files IH]; [done|].
    unfold to_hash. cbn [omap list_omap]. fold (to_hash config diskInfo hashMap files).
    rewrite filter_cons, IH.
    destruct (hashMap !! normPath (FileInfo_init diskInfo file)) as [h|] eqn:Hh.
    - rewrite decide_False; [done|]. by intros [? _].
    - destruct (filterFile config (normPath (FileInfo_init diskInfo file))) eqn:Hf.
      + by rewrite decide_True.
      + rewrite decide_False; [done|]. by intros [_ ?]. }
  exists (to_hash config diskInfo hashMap (listFiles w (rootPath diskInfo))), 
    (<[hashFile diskInfo :=
         concat_lines (carried diskInfo hashMap (listFiles w (rootPath diskInfo)))]> out).
  split_and!.
  - by apply listFileInfo_ok_total.
  - apply Hqueue.
  - rewrite Hqueue. apply Forall_fmap, Forall_forall. intros file _. simpl.
    split; [done|]. unfold size_after, FileInfo_size. simpl.
    by destruct (os_Stat w file).
  - intros fi h Hfi (file & _ & Hp & Hh)%elem_of_carried.
    rewrite Hqueue in Hfi. apply list_elem_of_fmap in Hfi as (file' & -> & Hin).
    apply list_elem_of_filter in Hin as [[Hnone _] _]. congruence.
Qed.

End ListingQueue.

Lemma listFileInfo_queues_new_included_files_witness :
  ∃ queue out',
    @listFileInfo example_lib (example_world "A1" None (Some 5)) include_all
      ∅ example_disk = Ok (queue, 5, out') ∧
    realPath <$> queue = ["D\f"].
Proof.
  destruct (@listFileInfo_queues_new_included_files example_lib
              (example_world "A1" None (Some 5)) include_all ∅ example_disk ∅)
    as (queue & out' & Hrun & -> & _); [reflexivity|reflexivity|].
  eexists _, out'. split; [exact Hrun|reflexivity].
Defined.

(** ** The digest of a file *)

Lemma length_zero_empty (s : string) : Z.of_nat (String.length s) = 0 ↔ s = EmptyString.
Proof. destruct s; simpl; [done|]. split; [lia|done]. Qed.

Section Hasher.
Context `{GoLib}.

Lemma calcHash_loop_result (file : string) (reads : list (string * read_err)) :
  ∀ hasher p,
    (calcHash_loop file reads hasher p).1 =
    match digest_reads reads hasher with
    | Some hash => (hash, None)
    | None => (EmptyString, Some (ErrRead file))
    end.
Proof.
  induction reads as [|[buffer e] reads IH]; intros hasher p; simpl; [done|].
  case_decide; [done|].
  destruct e; simpl; [| |done].
  - specialize (IH (hasher +:+ buffer)
      (with_sizeCount p (Increment (sizeCount p) (Z.of_nat (String.length buffer))))).
    by destruct (calcHash_loop file reads _ _) as [[hash e'] snapshots].
  - specialize (IH (hasher +:+ buffer)
      (with_sizeCount p (Increment (sizeCount p) (Z.of_nat (String.length buffer))))).
    by destruct (calcHash_loop file reads _ _) as [[hash e'] snapshots].
Qed.

Lemma calcHash_loop_count (file : string) (pre rest : list (string * read_err)) :
  Forall clean_read pre →
  match rest with [] => True | r :: _ => ¬ clean_read r end →
  ∀ hasher p, length (calcHash_loop file (pre ++ rest) hasher p).2 = length pre.
Proof.
  intros Hpre Hstop.
  induction Hpre as [|[buffer e] pre [Hbuf He] _ IH]; intros hasher p; simpl.
  - destruct rest as [|[buffer e] rest]; [done|]. simpl.
    case_decide as Hlen; [done|]. rewrite length_zero_empty in Hlen.
    destruct e; [destruct Hstop; by split..|done].
  - simpl in Hbuf, He. rewrite decide_False by (by rewrite length_zero_empty).
    specialize (IH (hasher +:+ buffer)
      (with_sizeCount p (Increment (sizeCount p) (Z.of_nat (String.length buffer))))).
    destruct e; [| |done];
      destruct (calcHash_loop file (pre ++ rest) _ _) as [[hash e'] snapshots];
      simpl in *; by rewrite IH.
Qed.

(** What [calcHash] returns, whatever the counters it is given. *)
Lemma calcHash_result (w : World) (file : string) (p : ProgressInfo) :
  (calcHash w file p).1 =
  match os_Open w file with
  | None => (EmptyString, Some (ErrOpen file))
  | Some reads =>
      match digest_reads reads EmptyString with
      | Some hash => (hash, None)
      | None => (EmptyString, Some (ErrRead file))
      end
  end.
Proof.
  unfold calcHash. destruct (os_Open w file) as [reads|]; [|done].
  rewrite <-(calcHash_loop_result file reads EmptyString (with_processingFile p file)).
  by destruct (calcHash_loop file reads _ _) as [[hash e] snapshots].
Qed.

Lemma digest_reads_clean (pre rest : list (string * read_err)) :
  Forall clean_read pre →
  ∀ hasher, digest_reads (pre ++ rest) hasher = digest_reads rest (hasher +:+ read_bytes pre).
Proof.
  induction 1 as [|[buffer e] pre [Hbuf He] _ IH]; intros hasher; simpl.
  - by rewrite app_empty_r.
  - simpl in Hbuf, He. rewrite decide_False by (by rewrite length_zero_empty).
    rewrite <-app_assoc_s. destruct e; [apply IH|apply IH|done].
Qed.

(** X2.  [calcHash] digests the bytes of the reads up to the first read
    that gives no bytes or an I/O error, and sends one snapshot per read
    digested.  A read that gives no bytes ends the file as the end of file
    does, with the digest of what was read and no error, even when that
    read reports an I/O error; a read that gives bytes together with an
    I/O error makes [calcHash] return the error and no digest. *)
Theorem calcHash_digests_until_empty_read (w : World) (file : string) (p : ProgressInfo)
    (pre rest : list (string * read_err)) :
  os_Open w file = Some (pre ++ rest) →
  Forall clean_read pre →
  match rest with [] => True | r :: _ => ¬ clean_read r end →
  (calcHash w file p).1 =
    (if read_fails rest then (EmptyString, Some (ErrRead file))
     else (md5_Sum (read_bytes pre), None)) ∧
  length (sent (calcHash w file p).2) = length pre.
Proof.
  intros Hopen Hpre Hstop. split.
  - rewrite calcHash_result, Hopen, digest_reads_clean by done.
    destruct rest as [|[buffer e] rest]; [done|]. simpl.
    case_decide as Hlen.
    + apply length_zero_empty in Hlen as ->. by destruct e.
    + rewrite length_zero_empty in Hlen.
      destruct e; [destruct Hstop; by split..|].
      by rewrite (proj2 (String.eqb_neq _ _) Hlen).
  - unfold calcHash. rewrite Hopen.
    pose proof (calcHash_loop_count file pre rest Hpre Hstop EmptyString
                  (with_processingFile p file)) as Hcount.
    by destruct (calcHash_loop file (pre ++ rest) _ _) as [[hash e] snapshots].
Qed.

End Hasher.

(** A file read in two pieces of three bytes, after which a read gives no
    bytes and an I/O error: the six bytes are digested and no error is
    returned. *)
Lemma calcHash_digests_until_empty_read_witness :
  let w := example_world "A1" (Some [("abc", NoErr); ("def", NoErr); ("", IOErr)]) (Some 6) in
  (@calcHash example_lib w "D\f" example_progress).1 = ("abcdef", None).
Proof.
  intros w.
  apply (@calcHash_digests_until_empty_read example_lib w "D\f" example_progress
           [("abc", NoErr); ("def", NoErr)] [("", IOErr)]).
  - reflexivity.
  - repeat constructor; simpl; congruence.
  - intros [Hbytes _]. by apply Hbytes.
Defined.

(** ** What the worker of a disk writes *)

Lemma makeHashMap_created (out : OutDir) (diskInfo : DiskInfo) :
  makeHashMap (<[hashFile diskInfo := default EmptyString (out !! hashFile diskInfo)]> out)
    diskInfo = makeHashMap out diskInfo.
Proof.
  unfold makeHashMap. rewrite lookup_insert_eq.
  by destruct (out !! hashFile diskInfo).
Qed.

Lemma written_all (w : World) (records : list (string * string)) :
  written w records = records ↔
  Forall (λ r, Fprintf_ok w (record_line r.1 r.2) = true) records.
Proof.
  induction records as [|[p h] records IH]; simpl.
  - split; [constructor|done].
  - destruct (Fprintf_ok w (record_line p h)) eqn:Hok.
    + rewrite Forall_cons, <-IH. simpl. split; [intros [= ->]; by rewrite Hok|].
      intros [_ ->]. done.
    + split; [done|]. intros [Hp _]%Forall_cons. simpl in Hp. congruence.
Qed.

Section WorkerOutput.
Context `{GoLib}.

Lemma calcHash_file_digest (w : World) (file : string) (p : ProgressInfo) :
  match file_digest w file with
  | Some hash => (calcHash w file p).1 = (hash, None)
  | None => ∃ e, (calcHash w file p).1 = (EmptyString, Some e)
  end.
Proof.
  rewrite calcHash_result. unfold file_digest.
  destruct (os_Open w file) as [reads|]; simpl; [|eauto].
  destruct (digest_reads reads ""); eauto.
Qed.

Lemma hashed_records_cons (w : World) (fi : FileInfo) (fileInfoList : list FileInfo) :
  hashed_records w (fi :: fileInfoList) =
  match file_digest w (realPath fi) with
  | Some hash => (normPath fi, hex hash) :: hashed_records w fileInfoList
  | None => hashed_records w fileInfoList
  end.
Proof. unfold hashed_records. simpl. by destruct (file_digest w (realPath fi)). Qed.

Lemma hashRoutine_loop_appended (w : World) (diskInfo : DiskInfo)
    (fileInfoList : list FileInfo) :
  ∀ p,
    appended (hashRoutine_loop w diskInfo fileInfoList p) =
      concat_lines (written w (hashed_records w fileInfoList)) ∧
    completion (hashRoutine_loop w diskInfo fileInfoList p) =
      {| diskId := id diskInfo;
         err := if decide (written w (hashed_records w fileInfoList) =
                           hashed_records w fileInfoList)
                then None else Some (ErrWrite (hashFile diskInfo)) |}.
Proof.
  induction fileInfoList as [|fi fis IH]; intros p.
  - cbn [hashRoutine_loop appended completion]. by rewrite decide_True.
  - rewrite hashed_records_cons. cbn [hashRoutine_loop].
    pose proof (calcHash_file_digest w (realPath fi) p) as Hcalc.
    destruct (calcHash w (realPath fi) p) as [[hash e] t].
    destruct (FileInfo_size w fi) as [size fi'].
    destruct (file_digest w (realPath fi)) as [h|].
    + simpl in Hcalc. injection Hcalc as -> ->.
      cbn [written]. fold (record_line (normPath fi) (hex h)).
      destruct (Fprintf_ok w (record_line (normPath fi) (hex h))) eqn:Hok.
      * destruct (IH (with_sizeCount (with_fileCount p (Increment (fileCount p) 1))
                        (Increment (sizeCount (with_fileCount p (Increment (fileCount p) 1)))
                           size))) as [Ha Hc].
        unfold after. cbn [appended completion]. rewrite Ha, Hc. split; [done|].
        f_equal. destruct (decide (written w (hashed_records w fis) = hashed_records w fis))
          as [Heq|Hne].
        -- rewrite decide_True; [done|]. by rewrite Heq.
        -- rewrite decide_False; [done|]. by intros [= ?].
      * cbn [appended completion]. split; [done|]. by rewrite decide_False.
    + destruct Hcalc as [e' Hcalc]. simpl in Hcalc. injection Hcalc as -> ->.
      destruct (IH (with_sizeCount (with_fileCount p (Increment (fileCount p) 1))
                      (Increment (sizeCount (with_fileCount p (Increment (fileCount p) 1)))
                         size))) as [Ha Hc].
      unfold after. cbn [appended completion]. by rewrite Ha, Hc.
Qed.

Lemma hashRoutine_loop_final (w : World) (diskInfo : DiskInfo)
    (fileInfoList : list FileInfo) :
  ∀ p,
    written w (hashed_records w fileInfoList) = hashed_records w fileInfoList →
    0 ≤ processed (fileCount p) →
    processed (fileCount p) + Z.of_nat (length fileInfoList) < 2 ^ 64 →
    total (fileCount (final (hashRoutine_loop w diskInfo fileInfoList p))) =
      total (fileCount p) ∧
    processed (fileCount (final (hashRoutine_loop w diskInfo fileInfoList p))) =
      processed (fileCount p) + Z.of_nat (length fileInfoList) ∧
    total (sizeCount (final (hashRoutine_loop w diskInfo fileInfoList p))) =
      total (sizeCount p) ∧
    last (sent (hashing_trace (hashRoutine_loop w diskInfo fileInfoList p))) =
      Some (final (hashRoutine_loop w diskInfo fileInfoList p)).
Proof.
  induction fileInfoList as [|fi fis IH]; intros p Hall Hp Hbound.
  - simpl. split_and!; [done|lia|done|done].
  - rewrite hashed_records_cons in Hall. cbn [hashRoutine_loop].
    pose proof (calcHash_file_digest w (realPath fi) p) as Hcalc.
    destruct (calcHash w (realPath fi) p) as [[hash e] t].
    destruct (FileInfo_size w fi) as [size fi'].
    set (p' := with_sizeCount (with_fileCount p (Increment (fileCount p) 1))
                 (Increment (sizeCount (with_fileCount p (Increment (fileCount p) 1))) size)).
    assert (processed (fileCount p') = processed (fileCount p) + 1) as Hp'
      by (simpl; apply u64_small; simpl length in Hbound; lia).
    assert (written w (hashed_records w fis) = hashed_records w fis ∧
            (e = None → Fprintf_ok w (normPath fi +:+ ":" +:+ hex hash +:+ newline) = true))
      as [Htail Hok].
    { destruct (file_digest w (realPath fi)) as [h|].
      - simpl in Hcalc. injection Hcalc as -> ->. cbn [written] in Hall.
        unfold record_line in Hall.
        destruct (Fprintf_ok w _); [|done]. by injection Hall as ->.
      - destruct Hcalc as [e' Hcalc]. simpl in Hcalc. injection Hcalc as -> ->. done. }
    destruct (IH p' Htail) as (Ht & Hf & Hs & Hlast);
      [lia|simpl length in Hbound; lia|].
    assert (∀ t0 line,
      total (fileCount (final (after t0 line (hashRoutine_loop w diskInfo fis p')))) =
        total (fileCount p) ∧
      processed (fileCount (final (after t0 line (hashRoutine_loop w diskInfo fis p')))) =
        processed (fileCount p) + Z.of_nat (length (fi :: fis)) ∧
      total (sizeCount (final (after t0 line (hashRoutine_loop w diskInfo fis p')))) =
        total (sizeCount p) ∧
      last (sent (hashing_trace (after t0 line (hashRoutine_loop w diskInfo fis p')))) =
        Some (final (after t0 line (hashRoutine_loop w diskInfo fis p')))) as Hafter.
    { intros t0 line. unfold after. cbn [final hashing_trace sent].
      split_and!; [done|simpl length; lia|done|].
      destruct (sent (hashing_trace (hashRoutine_loop w diskInfo fis p'))) as [|q qs] eqn:E;
        [done|].
      rewrite last_app. by rewrite Hlast. }
    destruct e as [e|]; [apply Hafter|].
    rewrite Hok by done. apply Hafter.
Qed.

Lemma hashRoutine_Ok_run (w w' : World) (config : Config) (out : OutDir)
    (diskInfo : DiskInfo) (r : worker) :
  hashRoutine w w' config out diskInfo = Ok r →
  ∃ hashMap,
    makeHashMap out diskInfo = Ok hashMap ∧
    let files := listFiles w (rootPath diskInfo) in
    let p0 :=
      {| progress_diskInfo := diskInfo;
         sizeCount := {| total := u64 (sum_sizes w (worker_queue r)); processed := 0 |};
         fileCount := {| total := u64 (Z.of_nat (length (worker_queue r))); processed := 0 |};
         processingFile := EmptyString;
         startTime := time_Now w |} in
    let h := hashRoutine_loop w' diskInfo (worker_queue r) p0 in
    worker_queue r = to_hash config diskInfo hashMap files ∧
    worker_trace r = {| sent := p0 :: sent (hashing_trace h); logged := logged (hashing_trace h) |} ∧
    worker_completion r = completion h ∧
    worker_final r = final h ∧
    worker_out r !! hashFile diskInfo =
      Some (concat_lines (carried diskInfo hashMap files) +:+ appended h) ∧
    ∀ name, name ≠ hashFile diskInfo → worker_out r !! name = out !! name.
Proof.
  unfold hashRoutine.
  destruct (MkdirAll_ok w); [|done]. destruct (os_OpenFile_ok w (hashFile diskInfo)); [|done].
  simpl.
  destruct (makeHashMap out diskInfo) as [hashMap|e] eqn:Hmap.
  - destruct (writable w (hashFile diskInfo)) eqn:Hw.
    + rewrite (listFileInfo_ok_total w config _ diskInfo hashMap)
        by (by rewrite ?makeHashMap_created).
      simpl. intros [= <-]. exists hashMap. split; [done|].
      simpl. split_and!; try done.
      * by rewrite !lookup_insert_eq.
      * intros name Hname. by rewrite !lookup_insert_ne.
    + unfold listFileInfo. rewrite makeHashMap_created, Hmap, Hw. done.
  - unfold listFileInfo. rewrite makeHashMap_created, Hmap. done.
Qed.

(** X3.  When the worker of a disk ends, the hash file of the disk holds
    the carry-forward lines followed by one line [path:digest], the digest
    in lower-case hexadecimal, for every queued file that could be opened
    and read, in the order of the queue, up to the first line whose write
    failed; a file that could not be hashed has no line.  No other file
    of the output directory is changed.  The completion message names the
    disk, and carries an error exactly when a write failed. *)
Theorem hashRoutine_appends_hashed_lines (w w' : World) (config : Config) (out : OutDir)
    (diskInfo : DiskInfo) (r : worker) :
  hashRoutine w w' config out diskInfo = Ok r →
  ∃ hashMap,
    makeHashMap out diskInfo = Ok hashMap ∧
    worker_out r !! hashFile diskInfo =
      Some (concat_lines (carried diskInfo hashMap (listFiles w (rootPath diskInfo))) +:+
            concat_lines (written w' (hashed_records w' (worker_queue r)))) ∧
    (∀ name, name ≠ hashFile diskInfo → worker_out r !! name = out !! name) ∧
    diskId (worker_completion r) = id diskInfo ∧
    (err (worker_completion r) = None ↔
       Forall (λ rec, Fprintf_ok w' (record_line rec.1 rec.2) = true)
         (hashed_records w' (worker_queue r))) ∧
    (∀ fi, fi ∈ worker_queue r → file_digest w' (realPath fi) = None →
       ∀ h, (∀ fi', fi' ∈ worker_queue r → normPath fi' = normPath fi →
               file_digest w' (realPath fi') = None) →
            (normPath fi, h) ∉ hashed_records w' (worker_queue r)).
Proof.
  intros (hashMap & Hmap & Hq & Ht & Hc & Hf & Hout & Hother)%hashRoutine_Ok_run.
  exists hashMap. split; [done|].
  destruct (hashRoutine_loop_appended w' diskInfo (worker_queue r)
              {| progress_diskInfo := diskInfo;
                 sizeCount := {| total := u64 (sum_sizes w (worker_queue r)); processed := 0 |};
                 fileCount := {| total := u64 (Z.of_nat (length (worker_queue r)));
                                 processed := 0 |};
                 processingFile := EmptyString;
                 startTime := time_Now w |}) as [Ha Hcompl].
  rewrite Ha in Hout. rewrite Hcompl in Hc. split_and!; [done|done|by rewrite Hc| |].
  - rewrite Hc, <-written_all. simpl. case_decide; [done|]. split; [done|]. by intros ?.
  - intros fi Hfi Hnone h Hsame (fi' & Hfi' & Hrec)%list_elem_of_omap.
    destruct (file_digest w' (realPath fi')) as [h'|] eqn:Hd; [|done].
    simpl in Hrec. injection Hrec as Hp _. rewrite (Hsame fi' Hfi' Hp) in Hd. done.
Qed.

(** X4.  When no write fails and the queue holds fewer than 2^64 files,
    the worker counts every queued file as processed, hashed or not: in
    the last snapshot it sends, which is the final state of its counters,
    the processed files are the total files, and the total bytes are what
    the listing returned. *)
Theorem hashRoutine_counts_every_file (w w' : World) (config : Config) (out : OutDir)
    (diskInfo : DiskInfo) (r : worker) :
  hashRoutine w w' config out diskInfo = Ok r →
  (∀ line, Fprintf_ok w' line = true) →
  Z.of_nat (length (worker_queue r)) < 2 ^ 64 →
  last (sent (worker_trace r)) = Some (worker_final r) ∧
  fileCount (worker_final r) =
    {| total := Z.of_nat (length (worker_queue r));
       processed := Z.of_nat (length (worker_queue r)) |} ∧
  Completed (fileCount (worker_final r)) = true ∧
  total (sizeCount (worker_final r)) = u64 (sum_sizes w (worker_queue r)) ∧
  worker_completion r = {| diskId := id diskInfo; err := None |}.
Proof.
  intros (hashMap & Hmap & Hq & Ht & Hc & Hf & Hout & Hother)%hashRoutine_Ok_run Hok Hlen.
  assert (written w' (hashed_records w' (worker_queue r)) = hashed_records w' (worker_queue r))
    as Hall by (apply written_all, Forall_forall; intros; apply Hok).
  set (p0 := {| progress_diskInfo := diskInfo;
                sizeCount := {| total := u64 (sum_sizes w (worker_queue r)); processed := 0 |};
                fileCount := {| total := u64 (Z.of_nat (length (worker_queue r)));
                                processed := 0 |};
                processingFile := EmptyString;
                startTime := time_Now w |}) in *.
  destruct (hashRoutine_loop_final w' diskInfo (worker_queue r) p0 Hall) as (H1 & H2 & H3 & H4);
    [done|simpl; lia|].
  destruct (hashRoutine_loop_appended w' diskInfo (worker_queue r) p0) as [_ Hcompl].
  split_and!.
  - rewrite Ht. cbn [sent]. rewrite Hf.
    destruct (sent (hashing_trace (hashRoutine_loop w' diskInfo (worker_queue r) p0)))
      as [|q qs] eqn:E; [done|].
    by rewrite last_cons, H4.
  - rewrite Hf. destruct (fileCount (final _)) as [tot proc]. simpl in *.
    rewrite H1, H2, u64_small by lia. f_equal; lia.
  - rewrite Hf. unfold Completed. rewrite H1, H2. simpl.
    rewrite u64_small by lia. apply Z.leb_le. lia.
  - rewrite Hf, H3. simpl. done.
  - rewrite Hc, Hcompl. by rewrite decide_True.
Qed.


End WorkerOutput.

(** ** Reading back what was written *)

Lemma count_byte_app (c : ascii) (a b : string) :
  count_byte c (a +:+ b) = (count_byte c a + count_byte c b)%nat.
Proof. induction a as [|x a IH]; [done|]. rewrite app_cons. simpl. rewrite IH. lia. Qed.

Lemma free_of_app (c : ascii) (a b : string) :
  free_of c (a +:+ b) ↔ free_of c a ∧ free_of c b.
Proof. unfold free_of. rewrite count_byte_app. lia. Qed.

Lemma free_of_cons (c x : ascii) (s : string) :
  free_of c (String x s) ↔ x ≠ c ∧ free_of c s.
Proof.
  unfold free_of. simpl. case_decide; [split; [lia|by intros [? _]]|].
  simpl. split; [done|]. by intros [_ ?].
Qed.

Lemma raw_lines_line (s rest : string) :
  free_of "010" s → raw_lines (s +:+ newline +:+ rest) = s :: raw_lines rest.
Proof.
  induction s as [|c s IH]; intros Hs.
  - done.
  - apply free_of_cons in Hs as [Hc Hs]. rewrite app_cons. simpl.
    rewrite decide_False by done. by rewrite IH.
Qed.

Lemma raw_lines_free (s : string) : Forall (free_of "010") (raw_lines s).
Proof.
  induction s as [|c s IH]; simpl; [constructor|].
  case_decide as Hc; [by constructor|].
  destruct (raw_lines s) as [|l ls].
  - repeat constructor. by apply free_of_cons.
  - apply Forall_cons in IH as [Hl Hls]. constructor; [|done]. by apply free_of_cons.
Qed.

Lemma dropCR_count (c : ascii) (s : string) : (count_byte c (dropCR s) ≤ count_byte c s)%nat.
Proof.
  induction s as [|x s IH]; [done|].
  destruct s as [|y s].
  - simpl. destruct (decide (x = "013"%char)); simpl; lia.
  - change (dropCR (String x (String y s))) with (String x (dropCR (String y s))).
    simpl in *. lia.
Qed.

Lemma dropCR_app (a b : string) :
  b ≠ EmptyString → dropCR (a +:+ b) = a +:+ dropCR b.
Proof.
  intros Hb. induction a as [|x a IH]; [done|].
  rewrite !app_cons, <-IH.
  destruct (a +:+ b) as [|y s] eqn:E; [|done].
  destruct a; [rewrite app_empty_l in E; congruence|by rewrite app_cons in E].
Qed.

Lemma dropCR_record (p h : string) :
  dropCR h = h → dropCR (p +:+ ":" +:+ h) = p +:+ ":" +:+ h.
Proof.
  intros Hh. rewrite dropCR_app by (by destruct h).
  destruct h as [|c h]; [done|].
  change (":" +:+ String c h) with (String ":" (String c h)).
  change (dropCR (String ":" (String c h))) with (String ":" (dropCR (String c h))).
  by rewrite Hh.
Qed.

Lemma Split_free (sep : ascii) (s : string) : free_of sep s → Split sep s = [s].
Proof.
  induction s as [|c s IH]; [done|].
  intros [Hc Hs]%free_of_cons. simpl. rewrite decide_False by done. by rewrite IH.
Qed.

Lemma Split_at (sep : ascii) (a b : string) :
  free_of sep a → Split sep (a +:+ String sep b) = a :: Split sep b.
Proof.
  induction a as [|c a IH]; intros Ha.
  - simpl. by rewrite decide_True.
  - apply free_of_cons in Ha as [Hc Ha]. rewrite app_cons. simpl.
    rewrite decide_False by done. by rewrite IH.
Qed.

(** The tokens of a split, put together again with the separator. *)
Lemma Split_tokens (sep : ascii) (s : string) :
  Forall (free_of sep) (Split sep s) ∧
  ∀ c, c ≠ sep →
    foldr (λ t acc, count_byte c t + acc)%nat 0%nat (Split sep s) = count_byte c s.
Proof.
  induction s as [|x s [IH1 IH2]]; simpl.
  - split; [by repeat constructor|done].
  - case_decide as Hx.
    + split; [by constructor|]. intros c Hc. simpl. rewrite IH2 by done.
      rewrite decide_False by congruence. done.
    + destruct (Split sep s) as [|t ts].
      * split; [repeat constructor; by apply free_of_cons|].
        intros c Hc. specialize (IH2 c Hc). simpl in *. lia.
      * apply Forall_cons in IH1 as [Ht Hts]. split.
        -- constructor; [by apply free_of_cons|done].
        -- intros c Hc. specialize (IH2 c Hc). simpl in *. lia.
Qed.

Lemma dropCR_length (s : string) : (String.length (dropCR s) ≤ String.length s)%nat.
Proof.
  induction s as [|x s IH]; [done|].
  destruct s as [|y s].
  - simpl. destruct (decide (x = "013"%char)); simpl; lia.
  - change (dropCR (String x (String y s))) with (String x (dropCR (String y s))).
    simpl in *. lia.
Qed.

Lemma length_app_s (a b : string) :
  String.length (a +:+ b) = (String.length a + String.length b)%nat.
Proof. induction a as [|x a IH]; [done|]. rewrite app_cons. simpl. by rewrite IH. Qed.

Lemma fits_dropCR (line : string) : fits line → fits (dropCR line).
Proof. unfold fits. pose proof (dropCR_length line). lia. Qed.

Lemma fits_ltb (line : string) :
  (Z.of_nat (String.length line) <? MaxScanTokenSize) = true ↔ fits line.
Proof. apply Z.ltb_lt. Qed.

(** The lines before the first one that does not fit the buffer are all
    yielded. *)
Lemma scan_tokens_app (l1 l2 : list string) :
  Forall fits l1 → scan_tokens (l1 ++ l2) = (dropCR <$> l1) ++ scan_tokens l2.
Proof.
  induction 1 as [|line l1 Hline _ IH]; [done|].
  simpl. rewrite (proj2 (fits_ltb line) Hline). by rewrite IH.
Qed.

Lemma scan_tokens_fits (lines : list string) :
  Forall fits lines → scan_tokens lines = dropCR <$> lines.
Proof.
  intros Hfit. rewrite <-(app_nil_r lines) at 1.
  by rewrite scan_tokens_app, app_nil_r.
Qed.

(** At a line that does not fit the buffer the scanner stops for good. *)
Lemma scan_tokens_stop (l1 l2 : list string) (line : string) :
  Forall fits l1 → ¬ fits line → scan_tokens (l1 ++ line :: l2) = dropCR <$> l1.
Proof.
  intros Hfit Hlong. rewrite scan_tokens_app by done. simpl.
  destruct (Z.of_nat (String.length line) <? MaxScanTokenSize) eqn:E.
  - by apply fits_ltb in E.
  - by rewrite app_nil_r.
Qed.

Lemma scan_tokens_yielded (lines : list string) :
  Forall (λ token, ∃ line, line ∈ lines ∧ fits line ∧ token = dropCR line)
    (scan_tokens lines).
Proof.
  induction lines as [|line lines IH]; simpl; [constructor|].
  destruct (Z.of_nat (String.length line) <? MaxScanTokenSize) eqn:E; [|constructor].
  apply fits_ltb in E. constructor.
  - exists line. split_and!; [by left|done|done].
  - eapply Forall_impl; [exact IH|]. intros token (l & Hl & Hfit & ->).
    exists l. split_and!; [by right|done|done].
Qed.

Lemma ScanLines_free (s : string) : Forall (free_of "010") (ScanLines s).
Proof.
  unfold ScanLines. eapply Forall_impl; [apply scan_tokens_yielded|].
  intros token (line & Hline & _ & ->).
  pose proof (raw_lines_free s) as Hfree. rewrite Forall_forall in Hfree.
  specialize (Hfree line Hline). unfold free_of in *.
  pose proof (dropCR_count "010" line). lia.
Qed.

(** Every token the scanner yields fits its buffer. *)
Lemma ScanLines_fit (s : string) : Forall fits (ScanLines s).
Proof.
  unfold ScanLines. eapply Forall_impl; [apply scan_tokens_yielded|].
  intros token (line & _ & Hfit & ->). by apply fits_dropCR.
Qed.

Lemma clean_record_line (p h : string) :
  clean_record (p, h) → free_of "010" (p +:+ ":" +:+ h).
Proof.
  intros (Hp1 & Hp2 & Hh1 & Hh2 & Hcr). simpl in *.
  apply free_of_app. split; [done|]. apply free_of_app. split; [|done].
  by apply free_of_cons.
Qed.

Lemma raw_lines_whole_lines (records : list (string * string)) (rest : string) :
  Forall (λ r, free_of "010" (r.1 +:+ ":" +:+ r.2)) records →
  raw_lines (concat_lines records +:+ rest) =
    ((λ r, r.1 +:+ ":" +:+ r.2) <$> records) ++ raw_lines rest.
Proof.
  induction 1 as [|[p h] records Hfree _ IH]; [done|].
  simpl. unfold record_line.
  replace (((p +:+ ":" +:+ h +:+ newline) +:+ concat_lines records) +:+ rest)
    with ((p +:+ ":" +:+ h) +:+ newline +:+ (concat_lines records +:+ rest))
    by (by rewrite !app_assoc_s).
  rewrite raw_lines_line by done. by rewrite IH.
Qed.

Lemma raw_lines_concat_lines (records : list (string * string)) (rest : string) :
  Forall clean_record records →
  raw_lines (concat_lines records +:+ rest) =
    ((λ r, r.1 +:+ ":" +:+ r.2) <$> records) ++ raw_lines rest.
Proof.
  intros Hclean. apply raw_lines_whole_lines.
  eapply Forall_impl; [exact Hclean|]. intros [p h]. apply clean_record_line.
Qed.

Lemma dropCR_records (records : list (string * string)) :
  Forall clean_record records →
  dropCR <$> ((λ r, r.1 +:+ ":" +:+ r.2) <$> records) = (λ r, r.1 +:+ ":" +:+ r.2) <$> records.
Proof.
  induction 1 as [|[p h] records (_ & _ & _ & _ & Hcr) _ IH]; [done|].
  rewrite !fmap_cons, IH. f_equal. by apply dropCR_record.
Qed.

Lemma ScanLines_concat_lines (records : list (string * string)) :
  Forall clean_record records → Forall short_record records →
  ScanLines (concat_lines records) = (λ r, r.1 +:+ ":" +:+ r.2) <$> records.
Proof.
  intros Hclean Hshort. unfold ScanLines.
  rewrite <-(app_empty_r (concat_lines records)), raw_lines_concat_lines by done.
  simpl. rewrite app_nil_r, scan_tokens_fits by (by apply Forall_fmap).
  by apply dropCR_records.
Qed.

(** A file that holds the lines of records and then a line too long for
    the buffer reads as the lines of the records, whatever follows. *)
Lemma ScanLines_overlong (records : list (string * string)) (long rest : string) :
  Forall clean_record records → Forall short_record records →
  free_of "010" long → ¬ fits long →
  ScanLines (concat_lines records +:+ long +:+ newline +:+ rest) =
    (λ r, r.1 +:+ ":" +:+ r.2) <$> records.
Proof.
  intros Hclean Hshort Hfree Hlong. unfold ScanLines.
  rewrite raw_lines_concat_lines, raw_lines_line by done.
  rewrite scan_tokens_stop by (done || by apply Forall_fmap).
  by apply dropCR_records.
Qed.

Lemma makeHashMap_loop_records (file : string) (records : list (string * string)) :
  Forall clean_record records →
  ∀ i m,
    makeHashMap_loop file i ((λ r, r.1 +:+ ":" +:+ r.2) <$> records) m =
    Ok (foldl (λ m r, <[r.1 := r.2]> m) m records).
Proof.
  induction 1 as [|[p h] records (Hp1 & Hp2 & Hh1 & Hh2 & Hcr) _ IH]; intros i m; [done|].
  simpl in *.
  change (p +:+ ":" +:+ h) with (p +:+ String ":" h).
  rewrite Split_at, Split_free by done. simpl. apply IH.
Qed.

Lemma foldl_insert_list_to_map (records : list (string * string)) :
  ∀ m : gmap string string,
    foldl (λ m r, <[r.1 := r.2]> m) m records = list_to_map (reverse records) ∪ m.
Proof.
  induction records as [|[p h] records IH]; intros m; simpl.
  - by rewrite (left_id_L ∅ (∪)).
  - rewrite IH, reverse_cons, list_to_map_app. simpl.
    rewrite <-(assoc_L (∪)). f_equal.
    rewrite insert_empty. by rewrite <-insert_union_singleton_l.
Qed.

(** The prior mapping that [makeHashMap] reads from a file holding the
    lines of clean records. *)
Lemma makeHashMap_records (out : OutDir) (diskInfo : DiskInfo)
    (records : list (string * string)) :
  out !! hashFile diskInfo = Some (concat_lines records) →
  Forall clean_record records → Forall short_record records →
  makeHashMap out diskInfo = Ok (list_to_map (reverse records)).
Proof.
  intros Hfile Hclean Hshort. unfold makeHashMap. rewrite Hfile.
  rewrite ScanLines_concat_lines, makeHashMap_loop_records by done.
  by rewrite foldl_insert_list_to_map, (right_id_L ∅ (∪)).
Qed.

Lemma Split_one (sep : ascii) (s b : string) : Split sep s = [b] → s = b.
Proof.
  revert b. induction s as [|c s IH]; intros b; simpl; [by intros [= <-]|].
  pose proof (Split_length sep s) as Hlen.
  case_decide.
  - intros [= <- Hnil]. rewrite Hnil in Hlen. done.
  - destruct (Split sep s) as [|t ts]; [done|].
    intros [= <- ->]. by rewrite (IH t).
Qed.

(** A line that splits into two tokens is the tokens with the separator
    between them. *)
Lemma Split_two (sep : ascii) (s a b : string) :
  Split sep s = [a; b] → s = a +:+ String sep b.
Proof.
  revert a. induction s as [|c s IH]; intros a; simpl; [done|].
  case_decide as Hc.
  - intros [= <- Hb]. subst c. by rewrite (Split_one sep s b).
  - destruct (Split sep s) as [|t ts]; [done|].
    intros [= <- ->]. by rewrite (IH t).
Qed.

Lemma makeHashMap_loop_short (file : string) (lines : list string) :
  Forall fits lines →
  ∀ i m m',
    map_Forall (λ p h, short_record (p, h)) m →
    makeHashMap_loop file i lines m = Ok m' →
    map_Forall (λ p h, short_record (p, h)) m'.
Proof.
  induction 1 as [|line lines Hline _ IH]; intros i m m' Hm; simpl.
  - by intros [= <-].
  - destruct (Split ":" line) as [|t0 [|t1 [|t2 ts]]] eqn:Htokens; simpl; try done.
    apply IH. apply map_Forall_insert_2; [|done].
    apply Split_two in Htokens. subst line. exact Hline.
Qed.

(** Whatever file [makeHashMap] reads, the records of the mapping it
    returns have lines that fit the buffer of the scanner: they come from
    tokens it yielded. *)
Lemma makeHashMap_short (out : OutDir) (diskInfo : DiskInfo) (hashMap : gmap string string) :
  makeHashMap out diskInfo = Ok hashMap →
  map_Forall (λ p h, short_record (p, h)) hashMap.
Proof.
  unfold makeHashMap. destruct (out !! hashFile diskInfo) as [content|].
  - apply makeHashMap_loop_short; [apply ScanLines_fit|apply map_Forall_empty].
  - intros [= <-]. apply map_Forall_empty.
Qed.

Lemma makeHashMap_loop_clean (file : string) (lines : list string) :
  Forall (free_of "010") lines →
  ∀ i m m',
    map_Forall (λ p h, free_of ":" p ∧ free_of "010" p ∧ free_of ":" h ∧ free_of "010" h) m →
    makeHashMap_loop file i lines m = Ok m' →
    map_Forall (λ p h, free_of ":" p ∧ free_of "010" p ∧ free_of ":" h ∧ free_of "010" h) m'.
Proof.
  induction 1 as [|line lines Hline _ IH]; intros i m m' Hm; simpl.
  - by intros [= <-].
  - destruct (Split_tokens ":" line) as [Hcolon Hlf].
    specialize (Hlf "010"%char ltac:(done)).
    destruct (Split ":" line) as [|t0 [|t1 [|t2 ts]]]; simpl; try done.
    apply IH. apply map_Forall_insert_2; [|done].
    apply Forall_cons in Hcolon as [H0 Hcolon]. apply Forall_cons in Hcolon as [H1 _].
    unfold free_of in *. simpl in Hlf. split_and!; [done|lia|done|lia].
Qed.

(** Whatever file [makeHashMap] reads, the paths and the digests of the
    mapping it returns have no colon and no line feed. *)
Lemma makeHashMap_clean (out : OutDir) (diskInfo : DiskInfo) (hashMap : gmap string string) :
  makeHashMap out diskInfo = Ok hashMap →
  map_Forall (λ p h, free_of ":" p ∧ free_of "010" p ∧ free_of ":" h ∧ free_of "010" h) hashMap.
Proof.
  unfold makeHashMap. destruct (out !! hashFile diskInfo) as [content|].
  - apply makeHashMap_loop_clean; [apply ScanLines_free|apply map_Forall_empty].
  - intros [= <-]. apply map_Forall_empty.
Qed.

(** X6.  A fingerprint file that holds the lines of records without colon
    or line feed in path and digest (and no carriage return at the end of
    a digest), each line shorter than the buffer of the scanner, reads
    back as these records: [makeHashMap] succeeds, a path is mapped exactly
    when it has a record, and to the digest of the last record with that
    path. *)
Theorem makeHashMap_reads_back_records (out : OutDir) (diskInfo : DiskInfo)
    (records : list (string * string)) :
  out !! hashFile diskInfo = Some (concat_lines records) →
  Forall clean_record records →
  Forall short_record records →
  ∃ hashMap,
    makeHashMap out diskInfo = Ok hashMap ∧
    (∀ p, is_Some (hashMap !! p) ↔ p ∈ records.*1) ∧
    (∀ p h, hashMap !! p = Some h → (p, h) ∈ records) ∧
    (∀ before p h later,
       records = before ++ (p, h) :: later → p ∉ later.*1 → hashMap !! p = Some h).
Proof.
  intros Hfile Hclean Hshort. exists (list_to_map (reverse records)).
  split; [by apply makeHashMap_records|]. split_and!.
  - intros p. rewrite <-elem_of_reverse, <-fmap_reverse. split.
    + intros [h Hh]. destruct (decide (p ∈ (reverse records).*1)) as [|Hno]; [done|].
      pose proof (not_elem_of_list_to_map_1 (M := gmap string) _ _ Hno) as Hnone.
      congruence.
    + intros Hin. destruct (list_to_map (reverse records) !! p) as [h|] eqn:E; [eauto|].
      by apply not_elem_of_list_to_map_2 in E.
  - intros p h Hh%elem_of_list_to_map_2. by apply elem_of_reverse.
  - intros before p h later -> Hlater.
    rewrite reverse_app, reverse_cons, <-app_assoc, list_to_map_app. simpl.
    apply lookup_union_Some_raw. right. split.
    + apply not_elem_of_list_to_map_1. by rewrite fmap_reverse, elem_of_reverse.
    + by rewrite lookup_insert_eq.
Qed.

Lemma makeHashMap_reads_back_records_witness :
  ∃ hashMap,
    makeHashMap {[ "A1" := record_line "f" "1" +:+ record_line "g" "2" +:+ record_line "f" "3" ]}
      example_disk = Ok hashMap ∧
    hashMap !! "f" = Some "3".
Proof.
  destruct (makeHashMap_reads_back_records
              {[ "A1" := record_line "f" "1" +:+ record_line "g" "2" +:+ record_line "f" "3" ]}
              example_disk [("f", "1"); ("g", "2"); ("f", "3")])
    as (hashMap & Hrun & _ & _ & Hlast);
    [reflexivity|repeat constructor|repeat constructor|].
  exists hashMap. split; [exact Hrun|].
  apply (Hlast [("f", "1"); ("g", "2")] "f" "3" []); [reflexivity|].
  intros Hin. by apply elem_of_nil in Hin.
Defined.

(** ** A line that the scanner does not hold *)

Lemma repeat_byte_length (n : nat) (c : ascii) : String.length (repeat_byte n c) = n.
Proof. induction n as [|n IH]; simpl; [done|]. by rewrite IH. Qed.

Lemma repeat_byte_free (n : nat) (c x : ascii) : c ≠ x → free_of x (repeat_byte n c).
Proof.
  intros Hc. induction n as [|n IH]; [done|]. simpl. by apply free_of_cons.
Qed.

Lemma overlong_line_long : ¬ fits overlong_line.
Proof.
  unfold fits, overlong_line. rewrite repeat_byte_length, Z2Nat.id; [lia|done].
Qed.

(** C3, at the failing input and around it.  A line of 64 KiB or more ends
    the reading of the prior fingerprint file without any error: the
    scanner stops at it, the loop of [makeHashMap] ends as at the end of
    the file, and the mapping of the records before that line is
    returned.  The long line and the lines after it are passed over
    whatever they hold: lines with no colon or with several are not
    reported. *)
Theorem makeHashMap_passes_over_overlong_line (out : OutDir) (diskInfo : DiskInfo)
    (records : list (string * string)) (long rest : string) :
  out !! hashFile diskInfo = Some (concat_lines records +:+ long +:+ newline +:+ rest) →
  Forall clean_record records →
  Forall short_record records →
  free_of "010" long →
  ¬ fits long →
  ScanLines (concat_lines records +:+ long +:+ newline +:+ rest) =
    (λ r, r.1 +:+ ":" +:+ r.2) <$> records ∧
  makeHashMap out diskInfo = Ok (list_to_map (reverse records)).
Proof.
  intros Hfile Hclean Hshort Hfree Hlong.
  pose proof (ScanLines_overlong records long rest Hclean Hshort Hfree Hlong) as Hscan.
  split; [done|]. unfold makeHashMap. rewrite Hfile, Hscan.
  rewrite makeHashMap_loop_records by done.
  by rewrite foldl_insert_list_to_map, (right_id_L ∅ (∪)).
Qed.

(** The fingerprint file of [A1] holds the record of [f], a line of 65536
    bytes [a] and the line [c:2:3]: the second line has no colon and the
    third has two, and [makeHashMap] returns the mapping of [f] alone. *)
Lemma makeHashMap_passes_over_overlong_line_witness :
  ¬ well_formed_line overlong_line ∧ ¬ well_formed_line "c:2:3" ∧
  makeHashMap {[ "A1" := example_overlong ]} example_disk = Ok (list_to_map [("f", "abc")]).
Proof.
  split_and!.
  - unfold well_formed_line, overlong_line.
    by rewrite (repeat_byte_free _ "a" ":").
  - by vm_compute.
  - apply (makeHashMap_passes_over_overlong_line {[ "A1" := example_overlong ]} example_disk
             [("f", "abc")] overlong_line ("c:2:3" +:+ newline)).
    + apply lookup_singleton_eq.
    + by repeat constructor.
    + by repeat constructor.
    + by apply repeat_byte_free.
    + apply overlong_line_long.
Defined.

(** ** The lines of the merged file *)


(** Where every line of a file fits the buffer of the scanner and none is
    empty, the merge keeps all the lines of the file. *)
Lemma file_lines_all (out : OutDir) (name : string) :
  Forall (λ line, dropCR line ≠ EmptyString ∧ fits line)
    (raw_lines (default EmptyString (out !! name))) →
  file_lines out name = text_lines (default EmptyString (out !! name)).
Proof.
  intros Hlines. unfold file_lines, text_lines, ScanLines.
  rewrite scan_tokens_fits by (eapply Forall_impl; [exact Hlines|]; by intros l [_ ?]).
  induction Hlines as [|l ls [Hl _] _ IH]; [done|].
  rewrite fmap_cons, filter_cons, decide_True by done. by rewrite IH.
Qed.





(** ** Listing again, and the run after *)

Lemma hex_digits_plain (c : ascii) :
  let d1 := hex_digit (N_of_ascii c / 16) in
  let d2 := hex_digit (N_of_ascii c mod 16) in
  (d1 ≠ ":" ∧ d1 ≠ "010" ∧ d1 ≠ "013")%char ∧ (d2 ≠ ":" ∧ d2 ≠ "010" ∧ d2 ≠ "013")%char.
Proof. destruct c as [[] [] [] [] [] [] [] []]; vm_compute; by split_and!. Qed.

Lemma hex_free (c : ascii) (s : string) :
  (c = ":" ∨ c = "010" ∨ c = "013")%char → free_of c (hex s).
Proof.
  intros Hc. induction s as [|x s IH]; [done|].
  destruct (hex_digits_plain x) as [(H1 & H2 & H3) (H4 & H5 & H6)]. simpl.
  apply free_of_cons. split; [by destruct Hc as [->|[->| ->]]|].
  apply free_of_cons. split; [by destruct Hc as [->|[->| ->]]|done].
Qed.

Lemma dropCR_free (s : string) : free_of "013" s → dropCR s = s.
Proof.
  induction s as [|x s IH]; [done|]. intros [Hx Hs]%free_of_cons.
  destruct s as [|y s].
  - simpl. by rewrite decide_False.
  - change (dropCR (String x (String y s))) with (String x (dropCR (String y s))).
    by rewrite IH.
Qed.

Lemma elem_of_list_to_map_reverse (records : list (string * string)) (p h : string) :
  (p, h) ∈ records → (∀ h', (p, h') ∈ records → h = h') →
  (list_to_map (reverse records) : gmap string string) !! p = Some h.
Proof.
  intros Hin Hsame. apply elem_of_list_to_map_1'.
  - intros h' Hh'. apply Hsame. by apply elem_of_reverse.
  - by apply elem_of_reverse.
Qed.

Lemma not_elem_of_list_to_map_reverse (records : list (string * string)) (p : string) :
  p ∉ records.*1 ↔ (list_to_map (reverse records) : gmap string string) !! p = None.
Proof.
  rewrite <-not_elem_of_list_to_map. by rewrite fmap_reverse, elem_of_reverse.
Qed.

Section NextRun.
Context `{GoLib}.

Lemma elem_of_to_hash (config : Config) (diskInfo : DiskInfo)
    (hashMap : gmap string string) (files : list string) (fi : FileInfo) :
  fi ∈ to_hash config diskInfo hashMap files ↔
  ∃ file, file ∈ files ∧ fi = FileInfo_init diskInfo file ∧
    hashMap !! normPath fi = None ∧ filterFile config (normPath fi) = true.
Proof.
  unfold to_hash. rewrite list_elem_of_omap. split.
  - intros (file & Hin & Hfi). exists file. split; [done|].
    destruct (hashMap !! normPath (FileInfo_init diskInfo file)) eqn:Hh; [done|].
    destruct (filterFile config (normPath (FileInfo_init diskInfo file))) eqn:Hf; [|done].
    by injection Hfi as <-.
  - intros (file & Hin & -> & Hh & Hf). exists file. split; [done|]. by rewrite Hh, Hf.
Qed.

Lemma elem_of_hashed_records (w : World) (fileInfoList : list FileInfo) (p x : string) :
  (p, x) ∈ hashed_records w fileInfoList ↔
  ∃ fi d, fi ∈ fileInfoList ∧ normPath fi = p ∧
    file_digest w (realPath fi) = Some d ∧ x = hex d.
Proof.
  unfold hashed_records. rewrite list_elem_of_omap. split.
  - intros (fi & Hin & Hrec). destruct (file_digest w (realPath fi)) as [d|] eqn:Hd; [|done].
    simpl in Hrec. injection Hrec as <- <-. by exists fi, d.
  - intros (fi & d & Hin & <- & Hd & ->). exists fi. split; [done|]. by rewrite Hd.
Qed.

Lemma listing_ext (config : Config) (diskInfo : DiskInfo)
    (hashMap hashMap' : gmap string string) (files : list string) :
  (∀ file, file ∈ files →
     hashMap' !! normPath (FileInfo_init diskInfo file) =
     hashMap !! normPath (FileInfo_init diskInfo file)) →
  carried diskInfo hashMap' files = carried diskInfo hashMap files ∧
  to_hash config diskInfo hashMap' files = to_hash config diskInfo hashMap files.
Proof.
  induction files as [|file files IH]; intros Hsame; [done|].
  destruct IH as [IH1 IH2]; [intros f Hf; apply Hsame; by right|].
  unfold carried, to_hash in *. cbn [omap list_omap].
  rewrite (Hsame file) by (by left). by rewrite IH1, IH2.
Qed.

Lemma carried_clean (out : OutDir) (diskInfo : DiskInfo) (hashMap : gmap string string)
    (files : list string) :
  makeHashMap out diskInfo = Ok hashMap →
  (∀ p h, hashMap !! p = Some h → dropCR h = h) →
  Forall clean_record (carried diskInfo hashMap files).
Proof.
  intros Hmap Hcr. apply Forall_forall. intros [p h] (file & _ & _ & Hh)%elem_of_carried.
  destruct (makeHashMap_clean out diskInfo hashMap Hmap p h Hh) as (H1 & H2 & H3 & H4).
  unfold clean_record. simpl. split_and!; try done. by apply (Hcr p).
Qed.

Lemma carried_short (out : OutDir) (diskInfo : DiskInfo) (hashMap : gmap string string)
    (files : list string) :
  makeHashMap out diskInfo = Ok hashMap →
  Forall short_record (carried diskInfo hashMap files).
Proof.
  intros Hmap. apply Forall_forall. intros [p h] (file & _ & _ & Hh)%elem_of_carried.
  by apply (makeHashMap_short out diskInfo hashMap Hmap p h).
Qed.

Lemma carried_lookup (diskInfo : DiskInfo) (hashMap : gmap string string)
    (files : list string) (file : string) :
  file ∈ files →
  (list_to_map (reverse (carried diskInfo hashMap files)) : gmap string string)
    !! normPath (FileInfo_init diskInfo file) =
  hashMap !! normPath (FileInfo_init diskInfo file).
Proof.
  intros Hin. destruct (hashMap !! normPath (FileInfo_init diskInfo file)) as [h|] eqn:Hh.
  - apply elem_of_list_to_map_reverse.
    + apply elem_of_carried. eauto.
    + intros h' (_ & _ & _ & ?)%elem_of_carried. congruence.
  - apply not_elem_of_list_to_map_reverse.
    intros ([p h] & Hp & (_ & _ & _ & ?)%elem_of_carried)%list_elem_of_fmap.
    cbn [fst] in Hp. rewrite Hp in Hh. congruence.
Qed.

(** X7.  Listing a disk a second time, with nothing changed in between,
    changes nothing: the second listing queues the same files, returns the
    same total and rewrites the fingerprint file with the same content.
    (The digests of the prior mapping are taken not to end in a carriage
    return, which the scanner would drop when the rewritten file is
    read.) *)
Theorem listFileInfo_twice (w : World) (config : Config) (out : OutDir)
    (diskInfo : DiskInfo) (hashMap : gmap string string) :
  makeHashMap out diskInfo = Ok hashMap →
  writable w (hashFile diskInfo) = true →
  (∀ p h, hashMap !! p = Some h → dropCR h = h) →
  ∃ queue totalSize out',
    listFileInfo w config out diskInfo = Ok (queue, totalSize, out') ∧
    listFileInfo w config out' diskInfo = Ok (queue, totalSize, out').
Proof.
  intros Hmap Hw Hcr.
  pose proof (listFileInfo_ok_total w config out diskInfo hashMap Hmap Hw) as Hrun.
  simpl in Hrun. eexists _, _, _. split; [exact Hrun|].
  set (files := listFiles w (rootPath diskInfo)) in *.
  set (out' := <[hashFile diskInfo := concat_lines (carried diskInfo hashMap files)]> out).
  assert (makeHashMap out' diskInfo =
          Ok (list_to_map (reverse (carried diskInfo hashMap files)))) as Hmap'.
  { apply makeHashMap_records;
      [apply lookup_insert_eq|by apply (carried_clean out)|by apply (carried_short out)]. }
  rewrite (listFileInfo_ok_total w config out' diskInfo _ Hmap' Hw). fold files.
  destruct (listing_ext config diskInfo hashMap
              (list_to_map (reverse (carried diskInfo hashMap files))) files) as [-> ->].
  - intros file Hfile. by apply carried_lookup.
  - unfold out'. by rewrite insert_insert_eq.
Qed.

End NextRun.

Lemma listFileInfo_twice_witness :
  ∃ queue totalSize out',
    @listFileInfo example_lib (example_world "A1" None (Some 5)) include_all
      example_out example_disk = Ok (queue, totalSize, out') ∧
    @listFileInfo example_lib (example_world "A1" None (Some 5)) include_all
      out' example_disk = Ok (queue, totalSize, out').
Proof.
  apply (@listFileInfo_twice example_lib (example_world "A1" None (Some 5)) include_all
           example_out example_disk example_hashMap).
  - reflexivity.
  - reflexivity.
  - intros p h Hh. unfold example_hashMap in Hh.
    apply lookup_insert_Some in Hh as [[_ <-]|[_ Hh]]; [reflexivity|].
    apply lookup_insert_Some in Hh as [[_ <-]|[_ Hh]]; [reflexivity|].
    by rewrite lookup_empty in Hh.
Defined.

Section Resume.
Context `{GoLib}.

Lemma hashed_records_clean (w : World) (fileInfoList : list FileInfo) :
  (∀ fi, fi ∈ fileInfoList → is_Some (file_digest w (realPath fi)) →
     free_of ":" (normPath fi) ∧ free_of "010" (normPath fi)) →
  Forall clean_record (hashed_records w fileInfoList).
Proof.
  intros Hpaths. apply Forall_forall.
  intros [p x] (fi & d & Hfi & <- & Hd & ->)%elem_of_hashed_records.
  destruct (Hpaths fi Hfi) as [H1 H2]; [by rewrite Hd|].
  unfold clean_record. simpl. split_and!; try done.
  - apply hex_free. by left.
  - apply hex_free. right. by left.
  - apply dropCR_free, hex_free. right. by right.
Qed.

Lemma hashed_records_short (w : World) (fileInfoList : list FileInfo) :
  (∀ fi d, fi ∈ fileInfoList → file_digest w (realPath fi) = Some d →
     fits (normPath fi +:+ ":" +:+ hex d)) →
  Forall short_record (hashed_records w fileInfoList).
Proof.
  intros Hfit. apply Forall_forall.
  intros [p x] (fi & d & Hfi & <- & Hd & ->)%elem_of_hashed_records.
  by apply (Hfit fi d).
Qed.

Lemma hashRoutine_out_records (w w' : World) (config : Config) (out : OutDir)
    (diskInfo : DiskInfo) (r : worker) (hashMap : gmap string string) :
  hashRoutine w w' config out diskInfo = Ok r →
  makeHashMap out diskInfo = Ok hashMap →
  (∀ line, Fprintf_ok w' line = true) →
  worker_queue r = to_hash config diskInfo hashMap (listFiles w (rootPath diskInfo)) ∧
  worker_out r !! hashFile diskInfo =
    Some (concat_lines (carried diskInfo hashMap (listFiles w (rootPath diskInfo)) ++
                        hashed_records w' (worker_queue r))).
Proof.
  intros (hashMap' & Hmap' & Hq & Ht & Hc & Hf & Hout & Hother)%hashRoutine_Ok_run Hmap Hok.
  assert (hashMap' = hashMap) as -> by congruence. split; [done|].
  rewrite Hout, concat_lines_app. do 2 f_equal.
  match goal with |- appended (hashRoutine_loop w' diskInfo (worker_queue r) ?p) = _ =>
    destruct (hashRoutine_loop_appended w' diskInfo (worker_queue r) p) as [-> _] end.
  f_equal. apply written_all, Forall_forall. intros; apply Hok.
Qed.

Lemma next_run_hashMap (w w' : World) (config : Config) (out : OutDir)
    (diskInfo : DiskInfo) (r : worker) (hashMap : gmap string string) :
  hashRoutine w w' config out diskInfo = Ok r →
  makeHashMap out diskInfo = Ok hashMap →
  (∀ line, Fprintf_ok w' line = true) →
  (∀ p h, hashMap !! p = Some h → dropCR h = h) →
  (∀ fi, fi ∈ worker_queue r → is_Some (file_digest w' (realPath fi)) →
     free_of ":" (normPath fi) ∧ free_of "010" (normPath fi)) →
  (∀ fi d, fi ∈ worker_queue r → file_digest w' (realPath fi) = Some d →
     fits (normPath fi +:+ ":" +:+ hex d)) →
  makeHashMap (worker_out r) diskInfo =
    Ok (list_to_map (reverse (carried diskInfo hashMap (listFiles w (rootPath diskInfo)) ++
                              hashed_records w' (worker_queue r)))).
Proof.
  intros Hrun Hmap Hok Hcr Hpaths Hfit.
  destruct (hashRoutine_out_records w w' config out diskInfo r hashMap Hrun Hmap Hok)
    as [_ Hout].
  apply makeHashMap_records; [done| |]; apply Forall_app; split.
  - by apply (carried_clean out).
  - by apply hashed_records_clean.
  - by apply (carried_short out).
  - by apply hashed_records_short.
Qed.

Lemma next_run_lookup (w w' : World) (config : Config) (diskInfo : DiskInfo)
    (hashMap : gmap string string) (queue : list FileInfo) (p : string) :
  let files := listFiles w (rootPath diskInfo) in
  let hashMap2 : gmap string string :=
    list_to_map (reverse (carried diskInfo hashMap files ++ hashed_records w' queue)) in
  queue = to_hash config diskInfo hashMap files →
  match hashMap !! p with
  | Some h =>
      hashMap2 !! p = if decide (Exists (λ file, normPath (FileInfo_init diskInfo file) = p) files)
                      then Some h else None
  | None =>
      is_Some (hashMap2 !! p) ↔
      ∃ fi, fi ∈ queue ∧ normPath fi = p ∧ is_Some (file_digest w' (realPath fi))
  end.
Proof.
  intros files hashMap2 Hq.
  assert (∀ x, (p, x) ∈ hashed_records w' queue → hashMap !! p = None) as Hhashed.
  { intros x (fi & d & Hfi & <- & _)%elem_of_hashed_records.
    rewrite Hq in Hfi. by apply elem_of_to_hash in Hfi as (_ & _ & _ & ? & _). }
  destruct (hashMap !! p) as [h|] eqn:Hh.
  - case_decide as Hwalked.
    + apply Exists_exists in Hwalked as (file & Hfile & Hp).
      apply elem_of_list_to_map_reverse.
      * apply elem_of_app. left. apply elem_of_carried. eauto.
      * intros h' [(_ & _ & _ & ?)%elem_of_carried|Hin%Hhashed]%elem_of_app; congruence.
    + apply not_elem_of_list_to_map_reverse.
      intros ([p' x] & Hp & [Hin|Hin]%elem_of_app)%list_elem_of_fmap;
        cbn [fst] in Hp; subst p'.
      * apply elem_of_carried in Hin as (file & ? & ? & _). apply Hwalked.
        apply Exists_exists. eauto.
      * apply Hhashed in Hin. congruence.
  - split.
    + intros [x Hx]. apply elem_of_list_to_map_2, elem_of_reverse, elem_of_app in Hx
        as [(_ & _ & _ & ?)%elem_of_carried|Hin]; [congruence|].
      apply elem_of_hashed_records in Hin as (fi & d & Hfi & Hp & Hd & _).
      exists fi. by rewrite Hd.
    + intros (fi & Hfi & Hp & [d Hd]).
      destruct (hashMap2 !! p) as [x|] eqn:E; [eauto|].
      apply not_elem_of_list_to_map_reverse in E. destruct E.
      apply list_elem_of_fmap. exists (p, hex d). split; [done|].
      apply elem_of_app. right. apply elem_of_hashed_records. by exists fi, d.
Qed.

(** X8.  After a run in which no write failed, the fingerprint file of the
    disk reads back, at the next run, as a mapping that holds the prior
    record of every file of the walk that had one, holds a record for a
    path without prior record exactly when a queued file with that path
    got a digest (the lower-case hexadecimal of that digest when every
    queued file with the path got the same), and holds nothing for a path
    the walk did not visit.  (Paths of hashed files are taken to have no
    colon or line feed, prior digests not to end in a carriage return, and
    the lines written to be shorter than the buffer of the scanner, 64 KiB,
    as the line of a path that a walk reports is.) *)
Theorem next_run_knows_hashed_files (w w' : World) (config : Config) (out : OutDir)
    (diskInfo : DiskInfo) (r : worker) (hashMap : gmap string string) :
  hashRoutine w w' config out diskInfo = Ok r →
  makeHashMap out diskInfo = Ok hashMap →
  (∀ line, Fprintf_ok w' line = true) →
  (∀ p h, hashMap !! p = Some h → dropCR h = h) →
  (∀ fi, fi ∈ worker_queue r → is_Some (file_digest w' (realPath fi)) →
     free_of ":" (normPath fi) ∧ free_of "010" (normPath fi)) →
  (∀ fi d, fi ∈ worker_queue r → file_digest w' (realPath fi) = Some d →
     fits (normPath fi +:+ ":" +:+ hex d)) →
  ∃ hashMap2,
    makeHashMap (worker_out r) diskInfo = Ok hashMap2 ∧
    (∀ file h, file ∈ listFiles w (rootPath diskInfo) →
       hashMap !! normPath (FileInfo_init diskInfo file) = Some h →
       hashMap2 !! normPath (FileInfo_init diskInfo file) = Some h) ∧
    (∀ p, hashMap !! p = None →
       (is_Some (hashMap2 !! p) ↔
        ∃ fi, fi ∈ worker_queue r ∧ normPath fi = p ∧
          is_Some (file_digest w' (realPath fi)))) ∧
    (∀ fi d, fi ∈ worker_queue r →
       (∀ fi', fi' ∈ worker_queue r → normPath fi' = normPath fi →
          file_digest w' (realPath fi') = Some d) →
       hashMap2 !! normPath fi = Some (hex d)) ∧
    (∀ p, (∀ file, file ∈ listFiles w (rootPath diskInfo) →
             normPath (FileInfo_init diskInfo file) ≠ p) →
       hashMap2 !! p = None).
Proof.
  intros Hrun Hmap Hok Hcr Hpaths Hfit.
  destruct (hashRoutine_out_records w w' config out diskInfo r hashMap Hrun Hmap Hok)
    as [Hq _].
  eexists. split; [by apply (next_run_hashMap w w' config out diskInfo r hashMap)|].
  split_and!.
  - intros file h Hfile Hh.
    pose proof (next_run_lookup w w' config diskInfo hashMap (worker_queue r)
                  (normPath (FileInfo_init diskInfo file)) Hq) as Hlook.
    rewrite Hh in Hlook. rewrite Hlook. rewrite decide_True; [done|].
    apply Exists_exists. eauto.
  - intros p Hp.
    pose proof (next_run_lookup w w' config diskInfo hashMap (worker_queue r) p Hq) as Hlook.
    by rewrite Hp in Hlook.
  - intros fi d Hfi Hsame. apply elem_of_list_to_map_reverse.
    + apply elem_of_app. right. apply elem_of_hashed_records.
      exists fi, d. split_and!; try done. by apply Hsame.
    + intros x [(_ & _ & _ & Hh)%elem_of_carried|Hin]%elem_of_app.
      * rewrite Hq in Hfi. apply elem_of_to_hash in Hfi as (_ & _ & _ & ? & _). congruence.
      * apply elem_of_hashed_records in Hin as (fi' & d' & Hfi' & Hp & Hd' & ->).
        rewrite (Hsame fi' Hfi' Hp) in Hd'. congruence.
  - intros p Hunvisited. apply not_elem_of_list_to_map_reverse.
    intros ([p' x] & Hp & [Hin|Hin]%elem_of_app)%list_elem_of_fmap;
      cbn [fst] in Hp; subst p'.
    + apply elem_of_carried in Hin as (file & Hfile & Hp & _). by apply (Hunvisited file).
    + apply elem_of_hashed_records in Hin as (fi & d & Hfi & Hp & _).
      rewrite Hq in Hfi. apply elem_of_to_hash in Hfi as (file & Hfile & -> & _).
      by apply (Hunvisited file).
Qed.

(** X9.  When every queued file got a digest and no write failed, the
    listing of the next run over the same walk and rules queues no file
    and returns a total of 0: nothing is hashed twice.  (With the provisos
    of the reading back: no colon or line feed in the paths of the hashed
    files, no carriage return at the end of a prior digest, written lines
    shorter than the buffer of the scanner.) *)
Theorem second_run_hashes_nothing (w w' w2 : World) (config : Config) (out : OutDir)
    (diskInfo : DiskInfo) (r : worker) (hashMap : gmap string string) :
  hashRoutine w w' config out diskInfo = Ok r →
  makeHashMap out diskInfo = Ok hashMap →
  (∀ line, Fprintf_ok w' line = true) →
  (∀ p h, hashMap !! p = Some h → dropCR h = h) →
  (∀ fi, fi ∈ worker_queue r →
     is_Some (file_digest w' (realPath fi)) ∧
     free_of ":" (normPath fi) ∧ free_of "010" (normPath fi)) →
  (∀ fi d, fi ∈ worker_queue r → file_digest w' (realPath fi) = Some d →
     fits (normPath fi +:+ ":" +:+ hex d)) →
  listFiles w2 (rootPath diskInfo) = listFiles w (rootPath diskInfo) →
  writable w2 (hashFile diskInfo) = true →
  ∃ out2, listFileInfo w2 config (worker_out r) diskInfo = Ok ([], 0, out2).
Proof.
  intros Hrun Hmap Hok Hcr Hall Hfit Hwalk Hw2.
  destruct (hashRoutine_out_records w w' config out diskInfo r hashMap Hrun Hmap Hok)
    as [Hq _].
  pose proof (next_run_hashMap w w' config out diskInfo r hashMap Hrun Hmap Hok Hcr
                (λ fi Hfi _, proj2 (Hall fi Hfi)) Hfit) as Hmap2.
  pose proof (listFileInfo_ok_total w2 config (worker_out r) diskInfo _ Hmap2 Hw2) as Hrun2.
  cbv zeta in Hrun2. rewrite Hwalk in Hrun2.
  match type of Hrun2 with context [to_hash config diskInfo ?m ?fs] =>
    assert (to_hash config diskInfo m fs = []) as Hempty end.
  { apply elem_of_nil_inv. intros fi (file & Hfile & -> & Hnone & Hf)%elem_of_to_hash.
    pose proof (next_run_lookup w w' config diskInfo hashMap (worker_queue r)
                  (normPath (FileInfo_init diskInfo file)) Hq) as Hlook.
    cbv zeta in Hlook.
    destruct (hashMap !! normPath (FileInfo_init diskInfo file)) as [h|] eqn:Hh.
    - rewrite decide_True in Hlook by (apply Exists_exists; eauto). congruence.
    - assert (FileInfo_init diskInfo file ∈ worker_queue r) as Hfi
        by (rewrite Hq; apply elem_of_to_hash; eauto).
      destruct (proj2 Hlook) as [x Hx]; [|congruence].
      exists (FileInfo_init diskInfo file). split_and!; [done|done|]. by apply Hall. }
  rewrite Hempty in Hrun2. eexists. exact Hrun2.
Qed.

End Resume.

Lemma hashRoutine_appends_hashed_lines_witness :
  ∃ r,
    @hashRoutine example_lib (example_world "A1" ten_bytes (Some 10))
      (example_world "A1" ten_bytes (Some 10)) include_all ∅ example_disk = Ok r ∧
    worker_out r !! "A1" = Some (record_line "f" "30313233343536373839") ∧
    err (worker_completion r) = None.
Proof.
  eexists. split; [vm_compute; reflexivity|].
  edestruct (@hashRoutine_appends_hashed_lines example_lib
               (example_world "A1" ten_bytes (Some 10))
               (example_world "A1" ten_bytes (Some 10)) include_all ∅ example_disk)
    as (hashMap & _ & _ & _ & _ & Herr & _); [vm_compute; reflexivity|].
  split; [reflexivity|]. apply Herr. by repeat constructor.
Defined.

Lemma hashRoutine_counts_every_file_witness :
  ∃ r,
    @hashRoutine example_lib (example_world "A1" ten_bytes (Some 5))
      (example_world "A1" None None) include_all ∅ example_disk = Ok r ∧
    fileCount (worker_final r) = {| total := 1; processed := 1 |} ∧
    Completed (fileCount (worker_final r)) = true.
Proof.
  eexists. split; [vm_compute; reflexivity|].
  edestruct (@hashRoutine_counts_every_file example_lib
               (example_world "A1" ten_bytes (Some 5))
               (example_world "A1" None None) include_all ∅ example_disk)
    as (_ & Hcount & Hdone & _);
    [vm_compute; reflexivity|reflexivity|vm_compute; reflexivity|].
  split; [exact Hcount|exact Hdone].
Defined.

Lemma next_run_knows_hashed_files_witness :
  ∃ r hashMap2,
    @hashRoutine example_lib (example_world "A1" ten_bytes (Some 10))
      (example_world "A1" ten_bytes (Some 10)) include_all ∅ example_disk = Ok r ∧
    makeHashMap (worker_out r) example_disk = Ok hashMap2 ∧
    hashMap2 !! "f" = Some "30313233343536373839".
Proof.
  eexists.
  edestruct (@next_run_knows_hashed_files example_lib
               (example_world "A1" ten_bytes (Some 10))
               (example_world "A1" ten_bytes (Some 10)) include_all ∅ example_disk)
    with (hashMap := (∅ : gmap string string))
    as (hashMap2 & Hmap2 & _ & _ & Hhashed & _).
  - vm_compute. reflexivity.
  - reflexivity.
  - reflexivity.
  - intros p h Hh. by rewrite lookup_empty in Hh.
  - intros fi Hfi _. apply list_elem_of_singleton in Hfi as ->. by vm_compute.
  - intros fi d Hfi Hd. apply list_elem_of_singleton in Hfi as ->.
    injection Hd as <-. by vm_compute.
  - exists hashMap2. split; [reflexivity|]. split; [exact Hmap2|].
    apply (Hhashed (@FileInfo_init example_lib example_disk "D\f") "0123456789").
    + by left.
    + intros fi Hfi _. apply list_elem_of_singleton in Hfi as ->. reflexivity.
Defined.

Lemma second_run_hashes_nothing_witness :
  ∃ r out2,
    @hashRoutine example_lib (example_world "A1" ten_bytes (Some 10))
      (example_world "A1" ten_bytes (Some 10)) include_all ∅ example_disk = Ok r ∧
    @listFileInfo example_lib (example_world "A1" ten_bytes (Some 10)) include_all
      (worker_out r) example_disk = Ok ([], 0, out2).
Proof.
  eexists.
  edestruct (@second_run_hashes_nothing example_lib
               (example_world "A1" ten_bytes (Some 10))
               (example_world "A1" ten_bytes (Some 10))
               (example_world "A1" ten_bytes (Some 10)) include_all ∅ example_disk)
    with (hashMap := (∅ : gmap string string))
    as (out2 & Hrun2).
  - vm_compute. reflexivity.
  - reflexivity.
  - reflexivity.
  - intros p h Hh. by rewrite lookup_empty in Hh.
  - intros fi Hfi. apply list_elem_of_singleton in Hfi as ->.
    split_and!; [by eexists|reflexivity|reflexivity].
  - intros fi d Hfi Hd. apply list_elem_of_singleton in Hfi as ->.
    injection Hd as <-. by vm_compute.
  - reflexivity.
  - reflexivity.
  - exists out2. split; [reflexivity|exact Hrun2].
Defined.

(** ** A colon in a file name *)

Lemma raw_lines_nonempty (s : string) : s ≠ EmptyString → raw_lines s ≠ [].
Proof.
  destruct s as [|c s]; [done|]. intros _. simpl.
  case_decide; [done|]. by destruct (raw_lines s).
Qed.

Lemma raw_lines_app_terminated (a s : string) :
  raw_lines ((a +:+ newline) +:+ s) = raw_lines (a +:+ newline) ++ raw_lines s.
Proof.
  induction a as [|c a IH].
  - simpl. done.
  - rewrite !app_cons. simpl. case_decide; [by rewrite IH|].
    rewrite IH.
    destruct (raw_lines (a +:+ newline)) as [|l ls] eqn:E; [|done].
    apply raw_lines_nonempty in E; [done|]. by destruct a.
Qed.

Lemma concat_lines_terminated (records : list (string * string)) :
  concat_lines records = EmptyString ∨ ∃ a, concat_lines records = a +:+ newline.
Proof.
  induction records as [|[p h] records IH]; [by left|]. right. simpl.
  unfold record_line. destruct IH as [->|[a ->]].
  - exists (p +:+ ":" +:+ h). by rewrite app_empty_r, !app_assoc_s.
  - exists ((p +:+ ":" +:+ h +:+ newline) +:+ a). by rewrite !app_assoc_s.
Qed.

Lemma raw_lines_terminated_length (a : string) :
  Forall (λ l, (String.length l ≤ String.length a)%nat) (raw_lines (a +:+ newline)).
Proof.
  induction a as [|c a IH].
  - simpl. constructor; [done|constructor].
  - rewrite app_cons. simpl. case_decide.
    + constructor; [simpl; lia|]. eapply Forall_impl; [exact IH|]. simpl. intros; lia.
    + destruct (raw_lines (a +:+ newline)) as [|l ls].
      * constructor; [simpl; lia|constructor].
      * apply Forall_cons in IH as [Hl Hls]. constructor; [simpl; lia|].
        eapply Forall_impl; [exact Hls|]. simpl. intros; lia.
Qed.

(** The lines of a file of records whose lines fit the buffer fit it too,
    also where a path has a line feed and its record takes several
    lines. *)
Lemma raw_lines_concat_lines_fit (records : list (string * string)) :
  Forall short_record records → Forall fits (raw_lines (concat_lines records)).
Proof.
  induction 1 as [|[p h] records Hshort _ IH]; [constructor|].
  simpl. unfold record_line.
  replace ((p +:+ ":" +:+ h +:+ newline) +:+ concat_lines records)
    with (((p +:+ ":" +:+ h) +:+ newline) +:+ concat_lines records)
    by (by rewrite !app_assoc_s).
  rewrite raw_lines_app_terminated. apply Forall_app. split; [|done].
  eapply Forall_impl; [apply raw_lines_terminated_length|].
  unfold short_record, fits in *. simpl in *. intros l Hl. lia.
Qed.

Lemma ScanLines_record (before later : list (string * string)) (p h : string) :
  Forall short_record before → short_record (p, h) →
  free_of "010" p → free_of "010" h → dropCR h = h →
  ScanLines (concat_lines (before ++ (p, h) :: later))
    !! length (raw_lines (concat_lines before)) = Some (p +:+ ":" +:+ h).
Proof.
  intros Hbefore Hshort Hp Hh Hcr. unfold ScanLines.
  assert (raw_lines (concat_lines (before ++ (p, h) :: later)) =
          raw_lines (concat_lines before) ++
          (p +:+ ":" +:+ h) :: raw_lines (concat_lines later)) as ->.
  { rewrite concat_lines_app. simpl. unfold record_line.
    replace ((p +:+ ":" +:+ h +:+ newline) +:+ concat_lines later)
      with ((p +:+ ":" +:+ h) +:+ newline +:+ concat_lines later)
      by (by rewrite !app_assoc_s).
    assert (free_of "010" (p +:+ ":" +:+ h)) as Hline.
    { apply free_of_app. split; [done|]. apply free_of_app. split; [|done].
      by apply free_of_cons. }
    destruct (concat_lines_terminated before) as [->|[a ->]].
    - rewrite app_empty_l. simpl. by apply raw_lines_line.
    - rewrite raw_lines_app_terminated. f_equal. by apply raw_lines_line. }
  rewrite scan_tokens_app by (by apply raw_lines_concat_lines_fit).
  rewrite lookup_app_r by (by rewrite length_fmap).
  rewrite length_fmap, Nat.sub_diag. simpl.
  rewrite (proj2 (fits_ltb (p +:+ ":" +:+ h)) Hshort). simpl. by rewrite dropCR_record.
Qed.

Section ColonInPath.
Context `{GoLib}.

(** X10.  A queued file whose canonical path has a colon (and no line
    feed) and that gets a digest makes the fingerprint file unusable: the
    worker appends its line, which then has two colons or more, and at the
    next run [makeHashMap] ends the process on the file as corrupt.  (The
    lines written are shorter than the buffer of the scanner, 64 KiB, as
    the line of a path that a walk reports is.) *)
Theorem colon_in_path_corrupts_hash_file (w w' : World) (config : Config) (out : OutDir)
    (diskInfo : DiskInfo) (r : worker) (fi : FileInfo) :
  hashRoutine w w' config out diskInfo = Ok r →
  (∀ line, Fprintf_ok w' line = true) →
  (∀ fi d, fi ∈ worker_queue r → file_digest w' (realPath fi) = Some d →
     fits (normPath fi +:+ ":" +:+ hex d)) →
  fi ∈ worker_queue r →
  is_Some (file_digest w' (realPath fi)) →
  ¬ free_of ":" (normPath fi) →
  free_of "010" (normPath fi) →
  ∃ n, makeHashMap (worker_out r) diskInfo = Fatal (HashFileCorrupt (hashFile diskInfo) n).
Proof.
  intros Hrun Hok Hfit Hfi [d Hd] Hcolon Hlf.
  pose proof Hrun as (hashMap & Hmap & _)%hashRoutine_Ok_run.
  assert (Forall short_record
            (carried diskInfo hashMap (listFiles w (rootPath diskInfo)) ++
             hashed_records w' (worker_queue r))) as Hshort.
  { apply Forall_app. split; [by apply (carried_short out)|by apply hashed_records_short]. }
  destruct (hashRoutine_out_records w w' config out diskInfo r hashMap Hrun Hmap Hok)
    as [_ Hout].
  assert ((normPath fi, hex d) ∈
            carried diskInfo hashMap (listFiles w (rootPath diskInfo)) ++
            hashed_records w' (worker_queue r)) as Hin.
  { apply elem_of_app. right. apply elem_of_hashed_records. by exists fi, d. }
  apply list_elem_of_split in Hin as (before & later & Hrecords).
  rewrite Hrecords in Hout, Hshort.
  apply Forall_app in Hshort as [Hprefix [Hrecord _]%Forall_cons].
  assert (ScanLines (concat_lines (before ++ (normPath fi, hex d) :: later))
            !! length (raw_lines (concat_lines before)) =
          Some (normPath fi +:+ ":" +:+ hex d)) as Hline.
  { apply ScanLines_record; [done|done|done|apply hex_free; right; by left|].
    apply dropCR_free, hex_free. right. by right. }
  assert (¬ well_formed_line (normPath fi +:+ ":" +:+ hex d)) as Hbad.
  { unfold well_formed_line, free_of in *. rewrite count_byte_app.
    change (":" +:+ hex d) with (String ":" (hex d)). simpl. lia. }
  destruct (first_bad_line _ _ _ Hline Hbad) as (k & bad & _ & Hk & Hb & Hbefore).
  exists (1 + k)%nat. unfold makeHashMap. rewrite Hout.
  by apply (makeHashMap_loop_first_bad _ _ 1 ∅ k bad).
Qed.

End ColonInPath.

Lemma colon_in_path_corrupts_hash_file_witness :
  ∃ r n,
    @hashRoutine example_lib colon_world colon_world include_all ∅ example_disk = Ok r ∧
    worker_out r !! "A1" = Some (record_line "a:b" "78797a") ∧
    makeHashMap (worker_out r) example_disk = Fatal (HashFileCorrupt "A1" n).
Proof.
  eexists.
  edestruct (@colon_in_path_corrupts_hash_file example_lib colon_world colon_world
               include_all ∅ example_disk)
    with (fi := @FileInfo_init example_lib example_disk "D\a:b")
    as (n & Hfatal).
  - vm_compute. reflexivity.
  - reflexivity.
  - intros fi d Hfi Hd. apply list_elem_of_singleton in Hfi as ->.
    injection Hd as <-. by vm_compute.
  - by left.
  - by eexists.
  - vm_compute. discriminate.
  - reflexivity.
  - exists n. split; [reflexivity|]. split; [reflexivity|exact Hfatal].
Defined.

(** ** The remaining time *)

(** X11.  For a remaining time that is not negative, [formatRemainTime]
    formats the whole hours, the minutes of the hour and the seconds of
    the minute of that time: three numbers that are not negative, the last
    two below 60, which add up to the time in whole seconds.  For -1 it
    gives the placeholder. *)
Theorem formatRemainTime_fields (Sprintf : Z → Z → Z → string) (remainTime : Z) :
  0 ≤ remainTime →
  formatRemainTime Sprintf (-1) = "  -:--:--" ∧
  ∃ hours minutes seconds,
    formatRemainTime Sprintf remainTime = Sprintf hours minutes seconds ∧
    0 ≤ hours ∧ 0 ≤ minutes < 60 ∧ 0 ≤ seconds < 60 ∧
    hours * 3600 + minutes * 60 + seconds = remainTime ÷ time_Second.
Proof.
  intros Ht. split; [done|].
  unfold formatRemainTime. rewrite decide_False by lia.
  eexists _, _, _. split; [reflexivity|].
  change time_Hour with 3600000000000. change time_Minute with 60000000000.
  change time_Second with 1000000000.
  Z.to_euclidean_division_equations. lia.
Qed.

(** One hour, one minute and one second and a half. *)
Lemma formatRemainTime_fields_witness :
  ∃ hours minutes seconds,
    formatRemainTime (λ h m s, "") 3661500000000 = (λ h m s : Z, "") hours minutes seconds ∧
    0 ≤ hours ∧ 0 ≤ minutes < 60 ∧ 0 ≤ seconds < 60 ∧
    hours * 3600 + minutes * 60 + seconds = 3661500000000 ÷ time_Second.
Proof.
  apply (formatRemainTime_fields (λ h m s, "") 3661500000000). lia.
Defined.

(** ** The filter file *)

Section FilterFile.
Context `{GoLib}.
Variable TrimSpace : string → string.
Variable Compile : string → option Regexp.

Lemma initFilters_loop_skip (i : nat) (line : string) (lines : list string)
    (acc : list Filter) :
  TrimSpace EmptyString = EmptyString →
  skips TrimSpace line = true →
  initFilters_loop TrimSpace Compile i (line :: lines) acc =
  initFilters_loop TrimSpace Compile (S i) lines acc.
Proof.
  intros Hblank Hskip. unfold skips in Hskip. cbn [initFilters_loop].
  destruct (String.eqb (TrimSpace (norm_NFC line)) "") eqn:Htrim; [done|].
  destruct (norm_NFC line) as [|c rest]; [done|]. simpl in Hskip. by rewrite Hskip.
Qed.

Lemma initFilters_loop_rule (i : nat) (line : string) (lines : list string)
    (acc : list Filter) :
  TrimSpace EmptyString = EmptyString →
  skips TrimSpace line = false →
  ∃ c rest, norm_NFC line = String c rest ∧
    initFilters_loop TrimSpace Compile i (line :: lines) acc =
    if ((String.length (String c rest) <? 2)%nat ||
        negb (Ascii.eqb c "+") && negb (Ascii.eqb c "-"))%bool
    then inl (FilterLineMalformed i (String c rest))
    else match Compile rest with
         | None => inl (FilterPatternInvalid i (String c rest))
         | Some re =>
             initFilters_loop TrimSpace Compile (S i) lines
               (acc ++ [{| pattern := re; inclusion := Ascii.eqb c "+" |}])
         end.
Proof.
  intros Hblank Hskip. unfold skips in Hskip. cbn [initFilters_loop].
  destruct (String.eqb (TrimSpace (norm_NFC line)) "") eqn:Htrim; [done|].
  destruct (norm_NFC line) as [|c rest]; [by rewrite Hblank in Htrim|].
  simpl in Hskip. rewrite Hskip. by exists c, rest.
Qed.

(** A line that gives a rule gives no fatal error. *)
Lemma rule_not_bad (line : string) (f : Filter) (i : nat) (e : filter_fatal) :
  rule_of Compile line f → ¬ bad_rule Compile i line e.
Proof.
  intros (c & rest & (Hline & Hrest & Hsign) & Hre & _) [[_ Hno]|(_ & c' & rest' & Hform & Hnone)].
  - by apply (Hno c rest).
  - destruct Hform as (Hline' & _). rewrite Hline in Hline'.
    injection Hline' as <- <-. congruence.
Qed.

Lemma initFilters_loop_spec (lines : list string) :
  TrimSpace EmptyString = EmptyString →
  ∀ i acc,
    match initFilters_loop TrimSpace Compile i lines acc with
    | inr filters =>
        ∃ new, filters = acc ++ new ∧
          Forall2 (rule_of Compile) (filter (λ l, skips TrimSpace l = false) lines) new
    | inl e =>
        ∃ k line, lines !! k = Some line ∧ skips TrimSpace line = false ∧
          bad_rule Compile (i + k) line e ∧
          ∀ j l, (j < k)%nat → lines !! j = Some l →
            skips TrimSpace l = true ∨ ∃ f, rule_of Compile l f
    end.
Proof.
  intros Hblank. induction lines as [|line lines IH]; intros i acc.
  - simpl. exists []. by rewrite app_nil_r.
  - rewrite filter_cons. destruct (skips TrimSpace line) eqn:Hskip.
    { rewrite initFilters_loop_skip, decide_False by done.
      specialize (IH (S i) acc). destruct (initFilters_loop _ _ _ _ _); [|done].
      destruct IH as (k & l & Hk & Hl & Hbad & Hfirst). exists (S k), l.
      rewrite Nat.add_succ_r. split_and!; [done|done|done|].
      intros [|j] l' Hj Hl'; simpl in Hl'; [left; by simplify_eq|].
      apply (Hfirst j); [lia|done]. }
    rewrite decide_True by done.
    destruct (initFilters_loop_rule i line lines acc Hblank Hskip) as (c & rest & Hline & ->).
    destruct ((String.length (String c rest) <? 2)%nat ||
              negb (Ascii.eqb c "+") && negb (Ascii.eqb c "-"))%bool eqn:Hmal.
    { exists 0%nat, line. unfold bad_rule. rewrite Nat.add_0_r, Hline.
      split_and!; [done|done| |intros; lia].
      left. split; [done|]. intros c' rest' ([= <- <-] & Hrest & Hsign).
      apply orb_true_iff in Hmal as [Hlen|Hsign'].
      - apply Nat.ltb_lt in Hlen. destruct rest; [done|simpl in Hlen; lia].
      - apply andb_true_iff in Hsign' as [H1 H2].
        apply negb_true_iff, Ascii.eqb_neq in H1, H2. by destruct Hsign. }
    apply orb_false_iff in Hmal as [Hlen Hsign].
    assert (rule_form (String c rest) c rest) as Hform.
    { split_and!; [done| |].
      - apply Nat.ltb_ge in Hlen. destruct rest; [simpl in Hlen; lia|done].
      - apply andb_false_iff in Hsign as [H1|H1];
          apply negb_false_iff, Ascii.eqb_eq in H1; auto. }
    destruct (Compile rest) as [re|] eqn:Hre.
    + assert (rule_of Compile line {| pattern := re; inclusion := Ascii.eqb c "+" |}) as Hrule.
      { unfold rule_of. exists c, rest. rewrite Hline. done. }
      specialize (IH (S i) (acc ++ [{| pattern := re; inclusion := Ascii.eqb c "+" |}])).
      destruct (initFilters_loop _ _ _ _ _).
      * destruct IH as (k & l & Hk & Hl & Hbad & Hfirst). exists (S k), l.
        rewrite Nat.add_succ_r. split_and!; [done|done|done|].
        intros [|j] l' Hj Hl'; simpl in Hl'; [right; simplify_eq; eauto|].
        apply (Hfirst j); [lia|done].
      * destruct IH as (new & -> & Hall).
        exists ({| pattern := re; inclusion := Ascii.eqb c "+" |} :: new).
        split; [by rewrite <-app_assoc|]. by constructor.
    + exists 0%nat, line. unfold bad_rule. rewrite Nat.add_0_r, Hline.
      split_and!; [done|done| |intros; lia].
      right. split; [done|]. by exists c, rest.
Qed.

(** X12.  [initFilters] reads the lines of the filter file that the
    scanner yields, passes over the blank ones and those that start with
    [#], and turns every other line, in the order of the file, into one
    rule: the line must be [+] or [-] followed by a pattern that is not
    empty and compiles, and the rule includes exactly when the sign is
    [+].  The FIRST line that is not so ends the process, with its number
    in the file, the lines passed over counted, and its text: every line
    before it was passed over or gave a rule, and a line that gives a
    rule gives no error. *)
Theorem initFilters_rules_in_order (content : string) :
  TrimSpace EmptyString = EmptyString →
  match initFilters TrimSpace Compile (Some content) with
  | inr filters =>
      Forall2 (rule_of Compile)
        (filter (λ l, skips TrimSpace l = false) (ScanLines content)) filters
  | inl e =>
      ∃ k line, ScanLines content !! k = Some line ∧ skips TrimSpace line = false ∧
        bad_rule Compile (S k) line e ∧
        ∀ j l, (j < k)%nat → ScanLines content !! j = Some l →
          skips TrimSpace l = true ∨
          ∃ f, rule_of Compile l f ∧ ∀ i e', ¬ bad_rule Compile i l e'
  end.
Proof.
  intros Hblank. unfold initFilters.
  pose proof (initFilters_loop_spec (ScanLines content) Hblank 1 []) as Hspec.
  destruct (initFilters_loop _ _ _ _ _).
  - destruct Hspec as (k & line & Hk & Hline & Hbad & Hfirst).
    exists k, line. split_and!; [done|done|done|].
    intros j l Hj Hl. destruct (Hfirst j l Hj Hl) as [Hskip|[rule Hrule]]; [by left|].
    right. exists rule. split; [done|]. intros i e'. by apply (rule_not_bad l rule).
  - by destruct Hspec as (new & -> & Hall).
Qed.

End FilterFile.

(** A filter file whose first and third lines are no rules: the process
    ends on line 1, with its text. *)
Lemma initFilters_rules_in_order_witness :
  @initFilters example_lib (λ s, s) example_Compile
    (Some ("x" +:+ newline +:+ "+y" +:+ newline +:+ "z" +:+ newline))
  = inl (FilterLineMalformed 1 "x") ∧
  match @initFilters example_lib (λ s, s) example_Compile (Some example_filter_file) with
  | inr filters =>
      Forall2 (@rule_of example_lib example_Compile)
        (filter (λ l, @skips example_lib (λ s, s) l = false) (ScanLines example_filter_file))
        filters
  | inl e =>
      ∃ k line, ScanLines example_filter_file !! k = Some line ∧
        @skips example_lib (λ s, s) line = false ∧
        @bad_rule example_lib example_Compile (S k) line e ∧
        ∀ j l, (j < k)%nat → ScanLines example_filter_file !! j = Some l →
          @skips example_lib (λ s, s) l = true ∨
          ∃ f, @rule_of example_lib example_Compile l f ∧
            ∀ i e', ¬ @bad_rule example_lib example_Compile i l e'
  end.
Proof.
  split; [reflexivity|].
  apply (@initFilters_rules_in_order example_lib (λ s, s) example_Compile example_filter_file).
  reflexivity.
Defined.

(** ** The search for the marker file *)

Section DiskSearch.
Context `{GoLib}.

Lemma ancestor_S (k : nat) (dir : string) : ancestor (S k) dir = ancestor k (path_Dir dir).
Proof. unfold ancestor. by rewrite Nat.iter_succ_r. Qed.

Lemma findDiskFileFromCurrent_loop_skip (w : World) (Join : string → string → string)
    (k : nat) :
  ∀ dir fuel,
    (∀ j, (j < k)%nat →
       os_Stat w (Join (ancestor j dir) "disk") = None ∧ ancestor j dir ≠ "/") →
    (k ≤ fuel)%nat →
    findDiskFileFromCurrent_loop w Join fuel dir =
    findDiskFileFromCurrent_loop w Join (fuel - k) (ancestor k dir).
Proof.
  induction k as [|k IH]; intros dir fuel Hbelow Hfuel.
  - by rewrite Nat.sub_0_r.
  - destruct fuel as [|fuel]; [lia|].
    destruct (Hbelow 0%nat) as [Hstat Hroot]; [lia|].
    unfold ancestor in Hstat, Hroot. simpl in Hstat, Hroot.
    rewrite ancestor_S. cbn [findDiskFileFromCurrent_loop]. rewrite Hstat.
    rewrite (proj2 (String.eqb_neq _ _) Hroot). simpl.
    apply IH; [|lia]. intros j Hj. rewrite <-!ancestor_S. apply Hbelow. lia.
Qed.

(** X13.  With no disk root given, [findDiskFiles] looks for a file
    [disk] in the current directory and then in its parents, nearest
    first.  When the directories below the [k]-th parent hold no marker
    and are not the root, the search returns the marker of the [k]-th
    parent if it has one, and fails as not found if it has none and is the
    root; when no parent is the root and none holds a marker the search
    never returns, however many directories it is given. *)
Theorem findDiskFiles_nearest_ancestor (w : World) (Join : string → string → string)
    (getwd : string) (k : nat) :
  (∀ j, (j < k)%nat →
     os_Stat w (Join (ancestor j getwd) "disk") = None ∧ ancestor j getwd ≠ "/") →
  (is_Some (os_Stat w (Join (ancestor k getwd) "disk")) →
   ∀ fuel, (k < fuel)%nat →
     findDiskFiles w Join fuel getwd [] = Some (inl [Join (ancestor k getwd) "disk"])) ∧
  (os_Stat w (Join (ancestor k getwd) "disk") = None → ancestor k getwd = "/" →
   ∀ fuel, (k < fuel)%nat → findDiskFiles w Join fuel getwd [] = Some (inr tt)) ∧
  ((∀ j, os_Stat w (Join (ancestor j getwd) "disk") = None ∧ ancestor j getwd ≠ "/") →
   ∀ fuel, findDiskFiles w Join fuel getwd [] = None).
Proof.
  intros Hbelow. unfold findDiskFiles. cbn [length Nat.eqb]. split_and!.
  - intros [sz Hstat] fuel Hfuel.
    rewrite (findDiskFileFromCurrent_loop_skip w Join k getwd fuel) by (done || lia).
    destruct (fuel - k)%nat as [|fuel'] eqn:E; [lia|].
    cbn [findDiskFileFromCurrent_loop]. by rewrite Hstat.
  - intros Hstat Hroot fuel Hfuel.
    rewrite (findDiskFileFromCurrent_loop_skip w Join k getwd fuel) by (done || lia).
    destruct (fuel - k)%nat as [|fuel'] eqn:E; [lia|].
    cbn [findDiskFileFromCurrent_loop]. by rewrite Hstat, Hroot.
  - intros Hnever fuel.
    rewrite (findDiskFileFromCurrent_loop_skip w Join fuel getwd fuel)
      by (done || intros; apply Hnever).
    by rewrite Nat.sub_diag.
Qed.

End DiskSearch.

(** From [/mnt/a], where there is no marker, to [/mnt], where there is
    one. *)
Lemma findDiskFiles_nearest_ancestor_witness :
  @findDiskFiles parent_lib parent_world example_Join 5 "/mnt/a" [] = Some (inl ["/mnt/disk"]).
Proof.
  destruct (@findDiskFiles_nearest_ancestor parent_lib parent_world example_Join
              "/mnt/a" 1%nat) as [Hfound _].
  - intros j Hj. assert (j = 0%nat) as -> by lia. split; [reflexivity|discriminate].
  - apply Hfound; [by eexists|lia].
Defined.

(** ** From the worker to the merged file *)

Section WorkerThenMerge.
Context `{GoLib}.


Lemma dropCR_empty (s : string) : dropCR s = EmptyString → free_of ":" s.
Proof.
  destruct s as [|c [|y s]]; [done| |done].
  simpl. case_decide as Hc; [|done]. intros _. subst c. done.
Qed.

(** X18.  What the worker of a disk leaves is a fingerprint file of whole
    lines: when no write failed and the paths of the hashed files have no
    line feed, the hash file of the disk is the lines [path:digest] of the
    records carried forward and of the files hashed, one line each, none
    empty; and they all fit the buffer of the scanner when the lines
    written do, as the lines carried forward, which a scanner yielded, do
    already.  So the merge that follows drops no line of this file. *)
Theorem worker_leaves_whole_lines (w w' : World) (config : Config) (out : OutDir)
    (diskInfo : DiskInfo) (r : worker) :
  hashRoutine w w' config out diskInfo = Ok r →
  (∀ line, Fprintf_ok w' line = true) →
  (∀ fi d, fi ∈ worker_queue r → file_digest w' (realPath fi) = Some d →
     free_of "010" (normPath fi) ∧ fits (normPath fi +:+ ":" +:+ hex d)) →
  ∃ hashMap records,
    makeHashMap out diskInfo = Ok hashMap ∧
    records = carried diskInfo hashMap (listFiles w (rootPath diskInfo)) ++
              hashed_records w' (worker_queue r) ∧
    worker_out r !! hashFile diskInfo = Some (concat_lines records) ∧
    raw_lines (concat_lines records) = (λ rec, rec.1 +:+ ":" +:+ rec.2) <$> records ∧
    Forall (λ line, dropCR line ≠ EmptyString ∧ fits line) (raw_lines (concat_lines records)) ∧
    file_lines (worker_out r) (hashFile diskInfo) =
      text_lines (default EmptyString (worker_out r !! hashFile diskInfo)).
Proof.
  intros Hrun Hok Hwritten.
  pose proof Hrun as (hashMap & Hmap & _)%hashRoutine_Ok_run.
  destruct (hashRoutine_out_records w w' config out diskInfo r hashMap Hrun Hmap Hok)
    as [_ Hout].
  set (records := carried diskInfo hashMap (listFiles w (rootPath diskInfo)) ++
                  hashed_records w' (worker_queue r)) in *.
  assert (Forall (λ rec, free_of "010" (rec.1 +:+ ":" +:+ rec.2) ∧ short_record rec) records)
    as Hrecords.
  { apply Forall_app. split; apply Forall_forall.
    - intros [p h] Hin. split.
      + apply elem_of_carried in Hin as (_ & _ & _ & Hh).
        destruct (makeHashMap_clean out diskInfo hashMap Hmap p h Hh) as (_ & Hp & _ & Hd).
        simpl. apply free_of_app. split; [done|]. apply free_of_app. split; [|done].
        by apply free_of_cons.
      + pose proof (carried_short out diskInfo hashMap (listFiles w (rootPath diskInfo)) Hmap)
          as Hshort.
        rewrite Forall_forall in Hshort. by apply Hshort.
    - intros [p x] (fi & d & Hfi & <- & Hd & ->)%elem_of_hashed_records.
      destruct (Hwritten fi d Hfi Hd) as [Hlf Hfit]. split; [|done].
      simpl. apply free_of_app. split; [done|]. apply free_of_app. split.
      + by apply free_of_cons.
      + apply hex_free. right. by left. }
  assert (raw_lines (concat_lines records) = (λ rec, rec.1 +:+ ":" +:+ rec.2) <$> records)
    as Hlines.
  { rewrite <-(app_empty_r (concat_lines records)), raw_lines_whole_lines.
    - simpl. by rewrite app_nil_r.
    - eapply Forall_impl; [exact Hrecords|]. by intros rec [? _]. }
  assert (Forall (λ line, dropCR line ≠ EmptyString ∧ fits line)
            (raw_lines (concat_lines records))) as Hall.
  { rewrite Hlines. apply Forall_fmap. eapply Forall_impl; [exact Hrecords|].
    intros [p x] [_ Hfit]. simpl. split; [|done].
    intros Hempty%dropCR_empty. unfold free_of in Hempty.
    rewrite count_byte_app in Hempty.
    change (":" +:+ x) with (String ":" x) in Hempty. simpl in Hempty. lia. }
  exists hashMap, records. split_and!; try done.
  apply file_lines_all. by rewrite Hout.
Qed.

End WorkerThenMerge.

Lemma worker_leaves_whole_lines_witness :
  ∃ r,
    @hashRoutine example_lib (example_world "A1" ten_bytes (Some 10))
      (example_world "A1" ten_bytes (Some 10)) include_all ∅ example_disk = Ok r ∧
    file_lines (worker_out r) "A1" = ["f:30313233343536373839"].
Proof.
  eexists. split; [vm_compute; reflexivity|].
  edestruct (@worker_leaves_whole_lines example_lib
               (example_world "A1" ten_bytes (Some 10))
               (example_world "A1" ten_bytes (Some 10)) include_all ∅ example_disk)
    as (hashMap & records & _ & _ & _ & _ & _ & Hkept).
  - vm_compute. reflexivity.
  - reflexivity.
  - intros fi d Hfi Hd. apply list_elem_of_singleton in Hfi as ->.
    injection Hd as <-. split; [reflexivity|by vm_compute].
  - etransitivity; [exact Hkept|]. by vm_compute.
Defined.


(** ** The byte budget *)

Section ByteBudget.
Context `{GoLib}.

Lemma hashRoutine_loop_final_bytes (w : World) (diskInfo : DiskInfo)
    (fileInfoList : list FileInfo) :
  ∀ p,
    written w (hashed_records w fileInfoList) = hashed_records w fileInfoList →
    0 ≤ processed (sizeCount p) →
    processed (sizeCount p) + sum_sizes w fileInfoList < 2 ^ 64 →
    processed (sizeCount (final (hashRoutine_loop w diskInfo fileInfoList p))) =
      processed (sizeCount p) + sum_sizes w fileInfoList.
Proof.
  induction fileInfoList as [|fi fis IH]; intros p Hall Hp Hbound.
  - simpl. lia.
  - rewrite hashed_records_cons in Hall. cbn [hashRoutine_loop].
    pose proof (calcHash_file_digest w (realPath fi) p) as Hcalc.
    pose proof (size_after_nonneg w fi) as Hsize.
    pose proof (sum_sizes_nonneg w fis) as Hsum.
    cbn [sum_sizes foldr] in Hbound |- *. fold (sum_sizes w fis) in Hbound |- *.
    unfold size_after in Hsize, Hbound |- *.
    destruct (calcHash w (realPath fi) p) as [[hash e] t].
    destruct (FileInfo_size w fi) as [size fi']. cbn [fst] in Hsize, Hbound |- *.
    set (p' := with_sizeCount (with_fileCount p (Increment (fileCount p) 1))
                 (Increment (sizeCount (with_fileCount p (Increment (fileCount p) 1))) size)).
    assert (processed (sizeCount p') = processed (sizeCount p) + size) as Hp'
      by (simpl; apply u64_small; lia).
    assert (written w (hashed_records w fis) = hashed_records w fis ∧
            (e = None → Fprintf_ok w (normPath fi +:+ ":" +:+ hex hash +:+ newline) = true))
      as [Htail Hok].
    { destruct (file_digest w (realPath fi)) as [h|].
      - simpl in Hcalc. injection Hcalc as -> ->. cbn [written] in Hall.
        unfold record_line in Hall.
        destruct (Fprintf_ok w _); [|done]. by injection Hall as ->.
      - destruct Hcalc as [e' Hcalc]. simpl in Hcalc. injection Hcalc as -> ->. done. }
    specialize (IH p' Htail). clearbody p'.
    destruct e as [e|]; [|rewrite Hok by done]; unfold after; cbn [final];
      rewrite IH by lia; lia.
Qed.

(** X15.  When no write fails and every queued file is found, when the
    worker is done with it, to have the size it had when the disk was
    listed (the sizes adding up to less than 2^64), the byte budget is
    reached: in the final counters the processed bytes are the total
    bytes, whether the files could be hashed or not. *)
Theorem byte_budget_reached_when_sizes_hold (w w' : World) (config : Config) (out : OutDir)
    (diskInfo : DiskInfo) (r : worker) :
  hashRoutine w w' config out diskInfo = Ok r →
  (∀ line, Fprintf_ok w' line = true) →
  (∀ fi, fi ∈ worker_queue r → os_Stat w' (realPath fi) = os_Stat w (realPath fi)) →
  sum_sizes w (worker_queue r) < 2 ^ 64 →
  processed (sizeCount (worker_final r)) = total (sizeCount (worker_final r)) ∧
  processed (sizeCount (worker_final r)) = sum_sizes w (worker_queue r) ∧
  Completed (sizeCount (worker_final r)) = true.
Proof.
  intros (hashMap & Hmap & Hq & Ht & Hc & Hf & Hout & Hother)%hashRoutine_Ok_run
    Hok Hstat Hbound.
  assert (written w' (hashed_records w' (worker_queue r)) = hashed_records w' (worker_queue r))
    as Hall by (apply written_all, Forall_forall; intros; apply Hok).
  assert (sum_sizes w' (worker_queue r) = sum_sizes w (worker_queue r)) as Hsame.
  { clear -Hstat. induction (worker_queue r) as [|fi fis IH]; [done|]. simpl.
    rewrite IH by (intros; apply Hstat; by right).
    f_equal. unfold size_after, FileInfo_size. by rewrite Hstat by (by left). }
  pose proof (sum_sizes_nonneg w (worker_queue r)) as Hnonneg.
  set (p0 := {| progress_diskInfo := diskInfo;
                sizeCount := {| total := u64 (sum_sizes w (worker_queue r)); processed := 0 |};
                fileCount := {| total := u64 (Z.of_nat (length (worker_queue r)));
                                processed := 0 |};
                processingFile := EmptyString;
                startTime := time_Now w |}) in *.
  pose proof (hashRoutine_loop_final_bytes w' diskInfo (worker_queue r) p0 Hall) as Hbytes.
  rewrite Hsame in Hbytes. simpl in Hbytes.
  assert (total (sizeCount (final (hashRoutine_loop w' diskInfo (worker_queue r) p0))) =
          sum_sizes w (worker_queue r)) as Htotal.
  { clear -Hnonneg Hbound. 
    assert (total (sizeCount p0) = sum_sizes w (worker_queue r)) as <-
      by (simpl; apply u64_small; lia).
    generalize p0. clear. induction (worker_queue r) as [|fi fis IH]; intros p; [done|].
    cbn [hashRoutine_loop].
    destruct (calcHash w' (realPath fi) p) as [[hash e] t].
    destruct (FileInfo_size w' fi) as [size fi'].
    destruct e as [e|]; [unfold after; cbn [final]; by rewrite IH|].
    destruct (Fprintf_ok w' _); [unfold after; cbn [final]; by rewrite IH|done]. }
  rewrite Hf, Htotal, Hbytes by lia.
  split_and!; [lia|lia|]. unfold Completed. rewrite Htotal, Hbytes by lia.
  apply Z.leb_le. lia.
Qed.

End ByteBudget.

Lemma byte_budget_reached_when_sizes_hold_witness :
  ∃ r,
    @hashRoutine example_lib (example_world "A1" None (Some 5))
      (example_world "A1" None (Some 5)) include_all ∅ example_disk = Ok r ∧
    sizeCount (worker_final r) = {| total := 5; processed := 5 |}.
Proof.
  eexists. split; [vm_compute; reflexivity|].
  edestruct (@byte_budget_reached_when_sizes_hold example_lib
               (example_world "A1" None (Some 5))
               (example_world "A1" None (Some 5)) include_all ∅ example_disk)
    as (Hreached & _).
  - vm_compute. reflexivity.
  - reflexivity.
  - reflexivity.
  - vm_compute. reflexivity.
  - reflexivity.
Defined.

(** ** The groups of the merge *)

(** X16.  The merged file of a group depends on the disk files of that
    group only: two output directories that hold the same files of the
    group (same names, same contents) get the same merged file for it,
    whatever else they hold; and a group that has no disk file gets no
    write, so that what is there under its name is left as it is. *)
Theorem merged_file_depends_on_its_group (out out' : OutDir) (group : string) :
  (∀ name, group_of name = Some group → out' !! name = out !! name) →
  (in_group group (Glob out) →
   executeHashFileIntegration out' !! group = executeHashFileIntegration out !! group) ∧
  (¬ in_group group (Glob out) →
   executeHashFileIntegration out !! group = out !! group).
Proof.
  intros Hsame. destruct (group_lines_same_inputs out out' group Hsame) as [Hin Hlines].
  rewrite !executeHashFileIntegration_lookup, !mergedHashMap_of_lookup. split.
  - intros Hgroup. rewrite !decide_True by (done || by apply Hin).
    by rewrite (sort_Strings_Permutation _ _ Hlines).
  - intros Hgroup. by rewrite decide_False.
Qed.

Lemma merged_file_depends_on_its_group_witness :
  executeHashFileIntegration
    {[ "A1" := record_line "x" "111"; "B7" := record_line "z" "333"; "notes" := "n" ]} !! "A"
  = executeHashFileIntegration {[ "A1" := record_line "x" "111" ]} !! "A".
Proof.
  apply (merged_file_depends_on_its_group {[ "A1" := record_line "x" "111" ]}
           {[ "A1" := record_line "x" "111"; "B7" := record_line "z" "333"; "notes" := "n" ]}
           "A").
  - intros name (c & digits & -> & [= <-] & _)%group_of_Some.
    destruct (decide (String "A" digits = "A1")) as [->|Hne]; [reflexivity|].
    rewrite lookup_insert_ne by done.
    rewrite lookup_insert_ne by (intros [=]).
    rewrite lookup_singleton_ne by (intros [=]).
    by rewrite lookup_singleton_ne.
  - apply Exists_exists. exists "A1". split; [|reflexivity].
    apply elem_of_Glob. by eexists.
Defined.
